(** * Gemini CLI: the prompt runner and the slash-command service

    A shallow embedding of [packages/cli/src/lib/geminiRunner.ts]
    ([generateGemini], [applyNonInteractiveRestrictions]) and of the
    [CommandService] class, together with the properties their
    specification states about them.

    Layout: the JavaScript primitives the two sources rely on ([Js]), the
    command service ([CommandService]), the prompt runner ([Runner]), a
    concrete platform used to run the models ([Sim]), and then the theorems. *)

From stdpp Require Import base decidable option list strings gmap.
From Stdlib Require Import Ascii.
From Stdlib Require String.

#[local] Open Scope stdpp_scope.
#[local] Open Scope list_scope.

(* ===================================================================== *)
(** * JavaScript primitives *)
(* ===================================================================== *)

Module Js.

(** A JavaScript string is represented by the UTF-8 encoding of its text
    (lone surrogates are outside the model). *)

(** [ToBoolean] on a string: only the empty string is falsy. *)
Definition truthy (s : string) : bool :=
  match s with
  | EmptyString => false
  | String _ _ => true
  end.

(** [ToBoolean] on [string | undefined]. *)
Definition truthy_opt (o : option string) : bool :=
  match o with
  | Some s => truthy s
  | None => false
  end.

(** [a || b] on [string | undefined] operands. *)
Definition or_else (a : option string) (b : option string) : option string :=
  if truthy_opt a then a else b.

(** ** [String.prototype.trim]

    ECMAScript strips WhiteSpace and LineTerminator code points:
    U+0009..U+000D, U+0020, U+00A0, U+1680, U+2000..U+200A, U+2028,
    U+2029, U+202F, U+205F, U+3000 and U+FEFF.  In UTF-8 these are the
    one-, two- and three-byte sequences recognised below. *)

Definition byte_is (n : nat) (a : ascii) : bool := Nat.eqb (nat_of_ascii a) n.

Definition ws1 (a : ascii) : bool :=
  let n := nat_of_ascii a in
  (Nat.leb 9 n && Nat.leb n 13) || Nat.eqb n 32.

Definition ws2 (a b : ascii) : bool :=
  byte_is 194 a && byte_is 160 b.                       (* U+00A0 *)

Definition ws3 (a b c : ascii) : bool :=
  let n := nat_of_ascii c in
  (byte_is 225 a && byte_is 154 b && byte_is 128 c)     (* U+1680 *)
  || (byte_is 226 a && byte_is 128 b &&
      ((Nat.leb 128 n && Nat.leb n 138)                 (* U+2000..U+200A *)
       || Nat.eqb n 168 || Nat.eqb n 169                (* U+2028, U+2029 *)
       || Nat.eqb n 175))                               (* U+202F *)
  || (byte_is 226 a && byte_is 129 b && byte_is 159 c)  (* U+205F *)
  || (byte_is 227 a && byte_is 128 b && byte_is 128 c)  (* U+3000 *)
  || (byte_is 239 a && byte_is 187 b && byte_is 191 c). (* U+FEFF *)

(** Drops leading white space; [p2] and [p3] receive the bytes in the
    order in which they are met, so that the same loop serves both ends. *)
Fixpoint strip (p2 : ascii → ascii → bool) (p3 : ascii → ascii → ascii → bool)
    (l : list ascii) : list ascii :=
  match l with
  | [] => []
  | a :: l1 =>
      if ws1 a then strip p2 p3 l1
      else match l1 with
           | [] => l
           | b :: l2 =>
               if p2 a b then strip p2 p3 l2
               else match l2 with
                    | [] => l
                    | c :: l3 => if p3 a b c then strip p2 p3 l3 else l
                    end
           end
  end.

Definition trimStart_bytes (l : list ascii) : list ascii := strip ws2 ws3 l.

Definition trimEnd_bytes (l : list ascii) : list ascii :=
  rev (strip (λ b a, ws2 a b) (λ c b a, ws3 a b c) (rev l)).

Definition trim (s : string) : string :=
  String.string_of_list_ascii
    (trimEnd_bytes (trimStart_bytes (String.list_ascii_of_string s))).

(** [s?.trim()] on [string | undefined]. *)
Definition trim_opt (o : option string) : option string := trim <$> o.

(** The line feed used as separator by [join('\n')]. *)
Definition LF : string := String (ascii_of_nat 10) EmptyString.

(** [Array.prototype.join(sep)] on an array of strings. *)
Fixpoint join (sep : string) (l : list string) : string :=
  match l with
  | [] => ""
  | [x] => x
  | x :: xs => x +:+ sep +:+ join sep xs
  end.

(** [needle] occurs in [hay]. *)
Definition occurs_in (needle hay : string) : Prop :=
  ∃ before after, hay = before +:+ needle +:+ after.

(** ** Thrown values

    [Error m] is the object built by [new Error(m)], [TypeError m] the
    one the runtime raises, and [Value str] any other thrown value, known
    by its string conversion [str]. *)
Inductive Thrown : Type :=
| Error (message : string)
| TypeError (message : string)
| Value (str : string).

(** The string conversion applied by a template literal. *)
Definition to_string (e : Thrown) : string :=
  match e with
  | Error m => if truthy m then "Error: " +:+ m else "Error"
  | TypeError m => if truthy m then "TypeError: " +:+ m else "TypeError"
  | Value str => str
  end.

(** The result of a call: it returns (or its promise is fulfilled), or it
    throws (or its promise is rejected). *)
Inductive Outcome (A : Type) : Type :=
| Ok (a : A)
| Throw (e : Thrown).
#[global] Arguments Ok {A} a.
#[global] Arguments Throw {A} e.

(** ** [Set]: insertion-ordered, [SameValueZero] on strings is equality *)

Definition set_add (x : string) (s : list string) : list string :=
  if decide (x ∈ s) then s else s ++ [x].

(** [new Set(l)]: elements are added left to right. *)
Definition set_of (l : list string) : list string :=
  foldl (λ s x, set_add x s) [] l.

(** [Array.from(new Set(l))]. *)
Definition array_from_set (l : list string) : list string := set_of l.

(** ** [Map<string, V>]: an association list in insertion order *)

Definition Map (V : Type) : Type := list (string * V).

(** [m.set(k, v)]: an existing key keeps its position and takes the new
    value, a new key is appended. *)
Fixpoint map_set {V} (k : string) (v : V) (m : Map V) : Map V :=
  match m with
  | [] => [(k, v)]
  | (k', v') :: m' =>
      if decide (k' = k) then (k', v) :: m' else (k', v') :: map_set k v m'
  end.

Definition map_keys {V} (m : Map V) : list string := m.*1.

(** [Array.from(m.values())]. *)
Definition map_values {V} (m : Map V) : list V := m.*2.

End Js.

(* ===================================================================== *)
(** * The command service ([CommandService]) *)
(* ===================================================================== *)

Module CommandService.
Import Js.

(** A slash command, with the fields the tests give it; [action] stands
    for the identity of the function object. *)
Record SlashCommand : Type := {
  name : string;
  description : string;
  metadata_source : string;
  metadata_behavior : string;
  action : nat;
}.

#[global] Instance SlashCommand_eq_dec : EqDecision SlashCommand.
Proof. solve_decision. Defined.

(** An element of the array [Promise.allSettled] resolves to. *)
Inductive Settled : Type :=
| fulfilled (value : list SlashCommand)
| rejected (reason : Thrown).

(** What one call [loader.loadCommands()] does: it hands back a promise,
    which settles one way or the other, or it throws before returning. *)
Inductive LoaderCall : Type :=
| ReturnsPromise (p : Settled)
| ThrowsSync (e : Thrown).

(** An [ICommandLoader]: [behaviour n] is what its [n]-th call does. *)
Record Loader : Type := {
  behaviour : nat → LoaderCall;
  invocations : nat;
}.

Definition invoked (l : Loader) : Loader :=
  {| behaviour := behaviour l; invocations := S (invocations l) |}.

(** Arrays live in a store and are handed around by reference. *)
Record JsArray : Type := {
  items : list SlashCommand;
  frozen : bool;
}.

Definition loc : Type := nat.

Record Store : Type := {
  arrays : list JsArray;
  debug_log : list Thrown;      (* arguments of [console.debug] *)
}.

Definition alloc (a : JsArray) (σ : Store) : loc * Store :=
  (length (arrays σ), {| arrays := arrays σ ++ [a]; debug_log := debug_log σ |}).

(** The elements of the array at [l]. *)
Definition elements (l : loc) (σ : Store) : list SlashCommand :=
  match arrays σ !! l with
  | Some a => items a
  | None => []
  end.

(** [arr.push(c)]: a frozen array refuses with a [TypeError]; otherwise
    the element is appended in place and the new length returned. *)
Definition push (l : loc) (c : SlashCommand) (σ : Store) : Outcome nat * Store :=
  match arrays σ !! l with
  | Some a =>
      if frozen a
      then (Throw (TypeError "Cannot add property, object is not extensible"), σ)
      else (Ok (S (length (items a))),
            {| arrays := <[l := {| items := items a ++ [c]; frozen := false |}]> (arrays σ);
               debug_log := debug_log σ |})
  | None => (Throw (TypeError "Cannot read properties of undefined"), σ)
  end.

(** The fields of the class. *)
Record Service : Type := {
  commands : loc;
  loaders : list Loader;
}.

(** [private commands: readonly SlashCommand[] = [];] then
    [constructor(private loaders: ICommandLoader[]) {}]. *)
Definition construct (ls : list Loader) (σ : Store) : Service * Store :=
  let '(l, σ') := alloc {| items := []; frozen := false |} σ in
  ({| commands := l; loaders := ls |}, σ').

(** [this.loaders.map((loader) => loader.loadCommands())]: the loaders
    are called in order; a call that throws ends the [map]. *)
Fixpoint call_loaders (ls : list Loader) : Outcome (list Settled) * list Loader :=
  match ls with
  | [] => (Ok [], [])
  | l :: ls' =>
      match behaviour l (invocations l) with
      | ThrowsSync e => (Throw e, invoked l :: ls')
      | ReturnsPromise p =>
          let '(r, ls'') := call_loaders ls' in
          (match r with
           | Ok ps => Ok (p :: ps)
           | Throw e => Throw e
           end, invoked l :: ls'')
      end
  end.

(** The first loop: fulfilled values are appended to [allCommands], the
    reasons of the others go to [console.debug]. *)
Definition collect_step (acc : list SlashCommand * list Thrown) (result : Settled)
    : list SlashCommand * list Thrown :=
  match result with
  | fulfilled value => (acc.1 ++ value, acc.2)
  | rejected reason => (acc.1, acc.2 ++ [reason])
  end.

Definition collect (results : list Settled) : list SlashCommand * list Thrown :=
  foldl collect_step ([], []) results.

(** The second loop: [commandMap.set(cmd.name, cmd)] for each command. *)
Definition build_map (allCommands : list SlashCommand) : Map SlashCommand :=
  foldl (λ commandMap cmd, map_set (name cmd) cmd commandMap) [] allCommands.

(** [Array.from(commandMap.values())] for the given settled results. *)
Definition catalog_of (results : list Settled) : list SlashCommand :=
  map_values (build_map (collect results).1).

(** [async loadCommands(): Promise<void>]. *)
Definition loadCommands (s : Service) (σ : Store) : Outcome unit * Service * Store :=
  match call_loaders (loaders s) with
  | (Throw e, ls) => (Throw e, {| commands := commands s; loaders := ls |}, σ)
  | (Ok results, ls) =>
      let '(allCommands, reasons) := collect results in
      let commandMap := build_map allCommands in
      let σ1 := {| arrays := arrays σ; debug_log := debug_log σ ++ reasons |} in
      let '(l, σ2) := alloc {| items := map_values commandMap; frozen := true |} σ1 in
      (Ok (), {| commands := l; loaders := ls |}, σ2)
  end.

(** [getCommands(): readonly SlashCommand[]]: the very array the service
    holds, not a copy. *)
Definition getCommands (s : Service) : loc := commands s.

(** What a reader of the service sees. *)
Definition published (s : Service) (σ : Store) : list SlashCommand :=
  elements (getCommands s) σ.

(** The settled results of the promises the loaders hand back on their
    next call, for loaders that all hand one back. *)
Definition settled_of (l : Loader) : option Settled :=
  match behaviour l (invocations l) with
  | ReturnsPromise p => Some p
  | ThrowsSync _ => None
  end.

(** What [Promise.allSettled] resolves to on the next call, when every
    loader hands back a promise. *)
Fixpoint promised (ls : list Loader) : option (list Settled) :=
  match ls with
  | [] => Some []
  | l :: ls' =>
      match settled_of l, promised ls' with
      | Some p, Some ps => Some (p :: ps)
      | _, _ => None
      end
  end.

(** The last command of [l] that carries the name [n]. *)
Definition last_named (n : string) (l : list SlashCommand) : option SlashCommand :=
  last (filter (λ c, name c = n) l).

(** The outputs of the fulfilled loaders, flattened in registration order. *)
Definition fulfilled_values (results : list Settled) : list SlashCommand :=
  results ≫= (λ r, match r with fulfilled value => value | rejected _ => [] end).

Definition rejection_reasons (results : list Settled) : list Thrown :=
  results ≫= (λ r, match r with fulfilled _ => [] | rejected reason => [reason] end).

(** The merge as the specification words it: one command per name, the
    names in the order in which they are first met, each with the last
    command met under that name. *)
Definition dedup_last_wins (l : list SlashCommand) : list SlashCommand :=
  omap (λ n, last_named n l) (set_of (name <$> l)).

(** The outputs of the loaders whose next call is fulfilled, flattened in
    registration order, whatever the other loaders do. *)
Definition fulfilled_outputs (ls : list Loader) : list SlashCommand :=
  ls ≫= (λ l, match behaviour l (invocations l) with
              | ReturnsPromise (fulfilled value) => value
              | _ => []
              end).

(** The position of [n] in a list of names. *)
Definition position (n : string) (l : list string) : option nat :=
  fst <$> list_find (λ k, k = n) l.

(** The store and the service after a call whose loaders all hand back
    a promise; [catalog_of] is [Array.from(commandMap.values())]. *)
Definition store_after (σ : Store) (ps : list Settled) : Store :=
  {| arrays := arrays σ ++ [{| items := catalog_of ps; frozen := true |}];
     debug_log := debug_log σ ++ rejection_reasons ps |}.

Definition service_after (s : Service) (σ : Store) : Service :=
  {| commands := length (arrays σ); loaders := invoked <$> loaders s |}.

(** A loader whose every call is fulfilled with [cmds]. *)
Definition loader_of (cmds : list SlashCommand) : Loader :=
  {| behaviour := λ _, ReturnsPromise (fulfilled cmds); invocations := 0 |}.

(** A loader whose every call is rejected with [e]. *)
Definition rejecting_loader (e : Thrown) : Loader :=
  {| behaviour := λ _, ReturnsPromise (rejected e); invocations := 0 |}.

(** A loader whose [loadCommands] is not [async] and throws. *)
Definition throwing_loader (e : Thrown) : Loader :=
  {| behaviour := λ _, ThrowsSync e; invocations := 0 |}.

(** A loader that answers from a script, one entry per call, like a mock
    with [mockResolvedValueOnce]. *)
Definition scripted_loader (script : list LoaderCall) : Loader :=
  {| behaviour := λ n, default (ReturnsPromise (fulfilled [])) (script !! n);
     invocations := 0 |}.

Definition empty_store : Store := {| arrays := []; debug_log := [] |}.

(** The commands of the test suite. *)
Definition createMockCommand (n src : string) : SlashCommand :=
  {| name := n; description := "Description for " +:+ n;
     metadata_source := src; metadata_behavior := "Custom"; action := 0 |}.
Definition mockCommandA := createMockCommand "command-a" "built-in".
Definition mockCommandB := createMockCommand "command-b" "built-in".
Definition mockCommandC := createMockCommand "command-c" "file".
Definition mockCommandB_Override := createMockCommand "command-b" "file".

End CommandService.

(* ===================================================================== *)
(** * The prompt runner ([geminiRunner.ts]) *)
(* ===================================================================== *)

Module Runner.
Import Js.

(** [AuthType] and [ApprovalMode] of the core package. *)
Inductive AuthType : Type := LOGIN_WITH_GOOGLE | USE_GEMINI | USE_VERTEX_AI.
Inductive ApprovalMode : Type := DEFAULT | AUTO_EDIT | YOLO.

#[global] Instance ApprovalMode_eq_dec : EqDecision ApprovalMode.
Proof. solve_decision. Defined.

(** An entry of [settings.errors]. *)
Record SettingsError : Type := {
  path : string;
  message : string;
}.

(** [settings.merged]: the two keys the runner reads, and the others,
    which it only copies ([...settings.merged]). *)
Record Settings : Type := {
  settings_model : option string;
  settings_excludeTools : option (list string);
  settings_others : list (string * string);
}.

(** The value of [loadSettings(cwd)]. *)
Record LoadedSettings : Type := {
  merged : Settings;
  errors : list SettingsError;
}.

(** Extension descriptors are only passed along. *)
Definition Extension : Type := string.

(** [CliArgs] of [config.ts], with the fields of the two literals. *)
Record CliArgs : Type := {
  model : string;
  sandbox : bool;
  sandboxImage : option string;
  debug : bool;
  prompt : string;
  promptInteractive : string;
  allFiles : bool;
  all_files : bool;
  extensions : list string;
  allowedMcpServerNames : list string;
  yolo : bool;
  showMemoryUsage : bool;
  show_memory_usage : bool;
  telemetry : bool;
  telemetryTarget : option string;
  telemetryOtlpEndpoint : option string;
  telemetryLogPrompts : option bool;
  checkpointing : bool;
  proxy : option string;
  experimentalAcp : bool;
  listExtensions : bool;
  ideMode : bool;
}.

(** What the runner reads from [process]. *)
Record Process : Type := {
  cwd : string;
  env : gmap string string;
  stdin_isTTY : bool;
}.

(** The collaborators of the runner.  [Config] is a reference to a
    configuration object of the engine and [World] the state they all
    share; every call may change it, and the asynchronous ones may
    reject.  [random_id] is [Math.random().toString(16).slice(2)]. *)
Class Platform : Type := {
  Config : Type;
  World : Type;
  USER_SETTINGS_PATH : string;
  ShellTool_Name : string;
  EditTool_Name : string;
  WriteFileTool_Name : string;
  loadSettings : string → LoadedSettings;
  loadExtensions : string → list Extension;
  loadCliConfig :
    Settings → list Extension → string → CliArgs → World → Outcome Config * World;
  validateAuthMethod : AuthType → World → option string;
  initialize : Config → World → Outcome unit * World;
  refreshAuth : Config → AuthType → World → Outcome unit * World;
  getApprovalMode : Config → World → ApprovalMode;
  getSessionId : Config → World → string;
  getQuestion : Config → World → option string;
  runNonInteractive : Config → string → string → World → Outcome unit * World;
  random_id : World → string * World;
}.

(** The engine's execution entry points named by the specification; the
    runner imports [runNonInteractive] only. *)
Inductive EngineEntry : Type := NonInteractiveEntry | InteractiveEntry.

Section WithPlatform.
Context {P : Platform}.

(** What a run does to its collaborators, in order, with what each
    call answered. *)
Inductive Event : Type :=
| EvLogAuthType (a : AuthType)
| EvLog (line : string)
| EvLoadCliConfig (s : Settings) (exts : list Extension) (sessionId : string)
    (argv : CliArgs) (r : Outcome Config)
| EvValidateAuthMethod (a : AuthType) (r : option string)
| EvInitialize (c : Config) (r : Outcome unit)
| EvRefreshAuth (c : Config) (a : AuthType) (r : Outcome unit)
| EvGetApprovalMode (c : Config) (m : ApprovalMode)
| EvGetSessionId (c : Config) (sessionId : string)
| EvGetQuestion (c : Config) (q : option string)
| EvRandom (id : string)
| EvRun (entry : EngineEntry) (c : Config) (question : string) (promptId : string)
    (r : Outcome unit).

Record RunState : Type := {
  world : World;
  trace : list Event;
}.

(** Computations that read and change the world, record what they do
    and may throw. *)
Definition M (A : Type) : Type := RunState → Outcome A * RunState.

Definition ret {A} (a : A) : M A := λ st, (Ok a, st).

Definition throw {A} (e : Thrown) : M A := λ st, (Throw e, st).

Definition bind {A B} (m : M A) (k : A → M B) : M B :=
  λ st, match m st with
        | (Ok a, st') => k a st'
        | (Throw e, st') => (Throw e, st')
        end.

(** [try { m } catch (error) { h error }]. *)
Definition try_catch {A} (m : M A) (h : Thrown → M A) : M A :=
  λ st, match m st with
        | (Ok a, st') => (Ok a, st')
        | (Throw e, st') => h e st'
        end.

(** A call that changes the world and may fail. *)
Definition call {A} (f : World → Outcome A * World) (ev : Outcome A → Event) : M A :=
  λ st, let '(r, w) := f (world st) in
        (r, {| world := w; trace := trace st ++ [ev r] |}).

(** A call that only reads the world. *)
Definition query {A} (f : World → A) (ev : A → Event) : M A :=
  λ st, let a := f (world st) in
        (Ok a, {| world := world st; trace := trace st ++ [ev a] |}).

Definition emit (ev : Event) : M unit :=
  λ st, (Ok (), {| world := world st; trace := trace st ++ [ev] |}).

Definition draw_random : M string :=
  λ st, let '(id, w) := random_id (world st) in
        (Ok id, {| world := w; trace := trace st ++ [EvRandom id] |}).
End WithPlatform.

Declare Scope runner_scope.
Delimit Scope runner_scope with runner.
Notation "x <- m ;; k" := (bind m (λ x, k))
  (at level 100, m at next level, right associativity) : runner_scope.
Notation "m ;; k" := (bind m (λ _, k))
  (at level 100, right associativity) : runner_scope.
#[local] Open Scope runner_scope.

Section Program.
Context {P : Platform}.

(** The diagnostics the runner raises itself, under the names the
    specification gives them; each is a plain [Error]. *)

(** [settings.errors.map((e) => `Erreur dans ${e.path}: ${e.message}`).join('\n')] *)
Definition ConfigurationError (errs : list SettingsError) : Thrown :=
  Error (join LF ((λ e, "Erreur dans " +:+ path e +:+ ": " +:+ message e) <$> errs)).

Definition AuthenticationError_missing : Thrown :=
  Error ("Aucune méthode d'auth. Configure " +:+ USER_SETTINGS_PATH
         +:+ " ou définis GEMINI_API_KEY").

Definition AuthenticationError_invalid (err : string) : Thrown := Error err.

Definition InputError : Thrown := Error "Aucune question fournie.".

Definition ExecutionError (error : Thrown) : Thrown :=
  Error ("Échec de génération Gemini : " +:+ to_string error).

(** [settings.merged.model || fallback]. *)
Definition model_or (settings : LoadedSettings) (fallback : string) : string :=
  default fallback (or_else (settings_model (merged settings)) (Some fallback)).

(** The literal [defaultCliArgs] of [generateGemini]. *)
Definition generateGemini_defaultCliArgs (settings : LoadedSettings) : CliArgs :=
  {| model := model_or settings "gemini-2.5-pro";
     sandbox := false;
     sandboxImage := None;
     debug := false;
     prompt := "";
     promptInteractive := "";
     allFiles := false;
     all_files := false;
     extensions := [];
     allowedMcpServerNames := [];
     yolo := true;
     showMemoryUsage := false;
     show_memory_usage := false;
     telemetry := false;
     telemetryTarget := None;
     telemetryOtlpEndpoint := None;
     telemetryLogPrompts := None;
     checkpointing := false;
     proxy := None;
     experimentalAcp := false;
     listExtensions := false;
     ideMode := false |}.

(** The literal [defaultCliArgs] of [applyNonInteractiveRestrictions]. *)
Definition restrictions_defaultCliArgs (settings : LoadedSettings) : CliArgs :=
  {| model := model_or settings "gemini-1.5-flash";
     sandbox := false;
     sandboxImage := None;
     debug := false;
     prompt := "";
     promptInteractive := "";
     allFiles := false;
     all_files := false;
     extensions := [];
     allowedMcpServerNames := [];
     yolo := true;
     showMemoryUsage := false;
     show_memory_usage := false;
     telemetry := false;
     telemetryTarget := None;
     telemetryOtlpEndpoint := None;
     telemetryLogPrompts := None;
     checkpointing := false;
     proxy := None;
     experimentalAcp := false;
     listExtensions := false;
     ideMode := false |}.

(** [[...(settings.merged.excludeTools || []), ShellTool.Name,
    EditTool.Name, WriteFileTool.Name]]; an array is always truthy. *)
Definition newExcludeTools (settings : LoadedSettings) : list string :=
  default [] (settings_excludeTools (merged settings))
  ++ [ShellTool_Name; EditTool_Name; WriteFileTool_Name].

(** [{ ...settings.merged, excludeTools: Array.from(new Set(newExcludeTools)) }] *)
Definition restricted_settings (settings : LoadedSettings) : Settings :=
  {| settings_model := settings_model (merged settings);
     settings_excludeTools := Some (array_from_set (newExcludeTools settings));
     settings_others := settings_others (merged settings) |}.

Definition applyNonInteractiveRestrictions
    (config : Config) (extensions : list Extension) (settings : LoadedSettings)
    : M Config :=
  approvalMode <- query (getApprovalMode config) (EvGetApprovalMode config) ;;
  if decide (approvalMode ≠ YOLO) then
    let merged := restricted_settings settings in
    let defaultCliArgs := restrictions_defaultCliArgs settings in
    sessionId <- query (getSessionId config) (EvGetSessionId config) ;;
    restrictedConfig <-
      call (loadCliConfig merged extensions sessionId defaultCliArgs)
           (EvLoadCliConfig merged extensions sessionId defaultCliArgs) ;;
    call (initialize restrictedConfig) (EvInitialize restrictedConfig) ;;
    ret restrictedConfig
  else
    call (initialize config) (EvInitialize config) ;;
    ret config.

(** [prompt.trim() || config.getQuestion()?.trim()]: the engine is
    asked only when the trimmed prompt is empty. *)
Definition resolve_question (config : Config) (prompt : string) : M (option string) :=
  if truthy (trim prompt) then ret (Some (trim prompt))
  else q <- query (getQuestion config) (EvGetQuestion config) ;;
       ret (trim_opt q).

Definition generateGemini (proc : Process) (prompt : string) (interactive : bool)
    : M string :=
  let cwd := cwd proc in
  let settings := loadSettings cwd in
  let extensions := loadExtensions cwd in
  if decide (0 < length (errors settings)) then
    throw (ConfigurationError (errors settings))
  else
  let authType :=
    if truthy_opt (env proc !! "GEMINI_API_KEY") then Some USE_GEMINI else None in
  match authType with
  | None => throw AuthenticationError_missing
  | Some authType =>
    emit (EvLogAuthType authType) ;;
    let defaultCliArgs := generateGemini_defaultCliArgs settings in
    config <-
      call (loadCliConfig (merged settings) extensions "session-id" defaultCliArgs)
           (EvLoadCliConfig (merged settings) extensions "session-id" defaultCliArgs) ;;
    err <- query (validateAuthMethod authType) (EvValidateAuthMethod authType) ;;
    if truthy_opt err then throw (AuthenticationError_invalid (default "" err))
    else
    call (initialize config) (EvInitialize config) ;;
    call (refreshAuth config authType) (EvRefreshAuth config authType) ;;
    if interactive || stdin_isTTY proc then
      question <- resolve_question config prompt ;;
      if negb (truthy_opt question) then throw InputError
      else
      let question := default "" question in
      promptId <- draw_random ;;
      emit (EvLog ("🤖 [INTERACTIF] Prompt: " +:+ question)) ;;
      call (runNonInteractive config question promptId)
           (EvRun NonInteractiveEntry config question promptId) ;;
      ret "Réponse interactive générée."
    else
      finalConfig <- applyNonInteractiveRestrictions config extensions settings ;;
      promptId <- draw_random ;;
      try_catch
        (call (runNonInteractive finalConfig prompt promptId)
              (EvRun NonInteractiveEntry finalConfig prompt promptId) ;;
         ret "Réponse non-interactive générée.")
        (λ error, throw (ExecutionError error))
  end.

(** The question of the interactive branch, given what the engine
    holds: the trimmed prompt, or else the engine's question, trimmed. *)
Definition effective_question (prompt : string) (engine_question : option string)
    : option string :=
  or_else (Some (trim prompt)) (trim_opt engine_question).

(** A run from a fresh trace. *)
Definition run {A} (m : M A) (w : World) : Outcome A * RunState :=
  m {| world := w; trace := [] |}.

End Program.

End Runner.

(* ===================================================================== *)
(** * A concrete platform *)
(* ===================================================================== *)

(** An engine simple enough to run the runner on: a configuration object
    remembers what it was built from, and the world says whether the
    folder is trusted (an untrusted folder lowers the approval mode), what
    question the engine holds and how the next execution ends. *)
Module Sim.
Import Js Runner.

Record SimConfig : Type := {
  built_from : Settings;
  built_with : CliArgs;
  session : string;
}.

Record SimWorld : Type := {
  trusted_folder : bool;
  question : option string;
  execution : Outcome unit;
  initialized : nat;
  drawn : nat;
}.

Definition broken_settings : LoadedSettings :=
  {| merged := {| settings_model := None; settings_excludeTools := None;
                  settings_others := [] |};
     errors := [ {| path := "/etc/gemini/settings.json";
                    message := "Unexpected token } in JSON" |};
                 {| path := "/home/u/.gemini/settings.json";
                    message := "Unexpected end of JSON input" |} ] |}.

Definition sound_settings : LoadedSettings :=
  {| merged := {| settings_model := None;
                  settings_excludeTools := Some ["web_fetch"; "run_shell_command"];
                  settings_others := [("theme", "dark")] |};
     errors := [] |}.

#[global] Instance platform : Platform := {|
  Config := SimConfig;
  World := SimWorld;
  USER_SETTINGS_PATH := "/home/u/.gemini/settings.json";
  ShellTool_Name := "run_shell_command";
  EditTool_Name := "replace";
  WriteFileTool_Name := "write_file";
  loadSettings cwd := if decide (cwd = "/broken") then broken_settings else sound_settings;
  loadExtensions _ := ["ext-a"];
  loadCliConfig s exts sid argv w :=
    (Ok {| built_from := s; built_with := argv; session := sid |}, w);
  validateAuthMethod _ _ := None;
  initialize _ w :=
    (Ok (), {| trusted_folder := trusted_folder w; question := question w;
               execution := execution w; initialized := S (initialized w);
               drawn := drawn w |});
  refreshAuth _ _ w := (Ok (), w);
  getApprovalMode c w :=
    if yolo (built_with c) && trusted_folder w then YOLO else DEFAULT;
  getSessionId c _ := session c;
  getQuestion _ w := question w;
  runNonInteractive _ _ _ w := (execution w, w);
  random_id w :=
    ("8c3f1a" +:+ String.string_of_list_ascii (replicate (drawn w) "0"%char),
     {| trusted_folder := trusted_folder w; question := question w;
        execution := execution w; initialized := initialized w;
        drawn := S (drawn w) |});
|}.

Definition world0 (trusted : bool) (q : option string) (exec : Outcome unit) : SimWorld :=
  {| trusted_folder := trusted; question := q; execution := exec;
     initialized := 0; drawn := 0 |}.

Definition process0 (dir : string) (key : option string) (tty : bool) : Process :=
  {| cwd := dir;
     env := match key with
            | Some k => {[ "GEMINI_API_KEY" := k ]}
            | None => ∅
            end;
     stdin_isTTY := tty |}.

End Sim.

(* ===================================================================== *)
(** * Reading a trace *)
(* ===================================================================== *)

Module Observe.
Import Js Runner.

Section WithPlatform.
Context {P : Platform}.

(** The engine was run. *)
Definition is_run (ev : Event) : bool :=
  match ev with
  | EvRun _ _ _ _ _ => true
  | _ => false
  end.

(** A correlation identifier was drawn. *)
Definition is_draw (ev : Event) : bool :=
  match ev with
  | EvRandom _ => true
  | _ => false
  end.


(** A configuration was asked to be built. *)
Definition is_build (ev : Event) : bool :=
  match ev with
  | EvLoadCliConfig _ _ _ _ _ => true
  | _ => false
  end.

(** A step of the restriction pass that the rest of the runner does not
    take: reading the approval mode or the session identifier. *)
Definition is_restriction_step (ev : Event) : bool :=
  match ev with
  | EvGetApprovalMode _ _ | EvGetSessionId _ _ => true
  | _ => false
  end.

(** The failure of a step that prepares the engine: building a
    configuration, initialising it, refreshing its authentication. *)
Definition preparation_failure (ev : Event) : option Thrown :=
  match ev with
  | EvLoadCliConfig _ _ _ _ (Throw e) => Some e
  | EvInitialize _ (Throw e) => Some e
  | EvRefreshAuth _ _ (Throw e) => Some e
  | _ => None
  end.

(** The events of a trace that pass a test. *)
Definition only (test : Event → bool) (tr : list Event) : list Event :=
  List.filter test tr.

End WithPlatform.

End Observe.

(* ===================================================================== *)
(** * A platform with failures *)
(* ===================================================================== *)

(** An engine whose steps can be made to fail: configurations are numbered
    in the order in which they are built, and the world says which build
    and which initialisation fail, what the validation and the refresh of
    the authentication answer, and how the execution ends. *)
Module Lab.
Import Js Runner.

Record LabWorld : Type := {
  validation : option string;
  failing_build : option nat;
  failing_initialize : option nat;
  refresh : Outcome unit;
  approval : ApprovalMode;
  execution : Outcome unit;
  builds : nat;
  initializations : nat;
}.

Definition built (w : LabWorld) : LabWorld :=
  {| validation := validation w; failing_build := failing_build w;
     failing_initialize := failing_initialize w; refresh := refresh w;
     approval := approval w; execution := execution w;
     builds := S (builds w); initializations := initializations w |}.

Definition initialized (w : LabWorld) : LabWorld :=
  {| validation := validation w; failing_build := failing_build w;
     failing_initialize := failing_initialize w; refresh := refresh w;
     approval := approval w; execution := execution w;
     builds := builds w; initializations := S (initializations w) |}.

Definition settings_with_model : LoadedSettings :=
  {| merged := {| settings_model := Some "gemini-2.0-flash";
                  settings_excludeTools := Some ["replace"; "web_fetch"; "replace"];
                  settings_others := [] |};
     errors := [] |}.

Definition platform : Platform := {|
  Config := nat;
  World := LabWorld;
  USER_SETTINGS_PATH := "/home/u/.gemini/settings.json";
  ShellTool_Name := "run_shell_command";
  EditTool_Name := "replace";
  WriteFileTool_Name := "write_file";
  loadSettings _ := settings_with_model;
  loadExtensions _ := [];
  loadCliConfig _ _ _ _ w :=
    (if decide (failing_build w = Some (builds w))
     then Throw (Error "Invalid configuration")
     else Ok (builds w),
     built w);
  validateAuthMethod _ w := validation w;
  initialize _ w :=
    (if decide (failing_initialize w = Some (initializations w))
     then Throw (Error "Config was already initialized")
     else Ok (),
     initialized w);
  refreshAuth _ _ w := (refresh w, w);
  getApprovalMode _ w := approval w;
  getSessionId _ _ := "session-id";
  getQuestion _ _ := None;
  runNonInteractive _ _ _ w := (execution w, w);
  random_id w := ("5e2b", w);
|}.

Definition world0 (v : option string) (fb fi : option nat) (rf : Outcome unit)
    (m : ApprovalMode) : LabWorld :=
  {| validation := v; failing_build := fb; failing_initialize := fi; refresh := rf;
     approval := m; execution := Ok (); builds := 0; initializations := 0 |}.

Definition process0 : Process :=
  {| cwd := "/work"; env := {[ "GEMINI_API_KEY" := "k" ]}; stdin_isTTY := false |}.

End Lab.

(* ===================================================================== *)
(** * Facts about the JavaScript primitives *)
(* ===================================================================== *)

Module JsFacts.
Import Js.

Lemma sapp_cons a s t : String a s +:+ t = String a (s +:+ t).
Proof. reflexivity. Qed.

Lemma sapp_nil_r s : s +:+ "" = s.
Proof. induction s as [|a s IH]; [done|]. by rewrite sapp_cons, IH. Qed.

Lemma sapp_assoc s t u : (s +:+ t) +:+ u = s +:+ t +:+ u.
Proof. induction s as [|a s IH]; [done|]. by rewrite !sapp_cons, IH. Qed.

Lemma sapp_length s t : String.length (s +:+ t) = String.length s + String.length t.
Proof. induction s as [|a s IH]; [done|]. rewrite sapp_cons. simpl. by rewrite IH. Qed.

Lemma occurs_in_refl s : occurs_in s s.
Proof. exists "", "". by rewrite sapp_nil_r. Qed.

Lemma occurs_in_app_l n s t : occurs_in n s → occurs_in n (s +:+ t).
Proof.
  intros (b & a & ->). exists b, (a +:+ t). by rewrite !sapp_assoc.
Qed.

Lemma occurs_in_app_r n s t : occurs_in n t → occurs_in n (s +:+ t).
Proof.
  intros (b & a & ->). exists (s +:+ b), a. by rewrite !sapp_assoc.
Qed.

Lemma occurs_in_trans a b c : occurs_in a b → occurs_in b c → occurs_in a c.
Proof.
  intros (b1 & a1 & ->) (b2 & a2 & ->).
  exists (b2 +:+ b1), (a1 +:+ a2). by rewrite !sapp_assoc.
Qed.

(** [trim] strips the white space of both ends, the no-break space
    (bytes 194, 160) and the line feed included, and nothing inside. *)
Example trim_strips_both_ends :
  trim ("  hi  there " +:+ String (ascii_of_nat 194) (String (ascii_of_nat 160) LF))
  = "hi  there"
  ∧ trim (String (ascii_of_nat 9) " ") = ""
  ∧ trim "Réponse" = "Réponse".
Proof. by vm_compute. Qed.

(** Every element of a joined array occurs in the result. *)
Lemma occurs_in_join sep x l : x ∈ l → occurs_in x (join sep l).
Proof.
  induction l as [|y l IH]; [by intros ?%elem_of_nil|].
  intros [->|Hx]%elem_of_cons.
  - destruct l as [|z l]; [apply occurs_in_refl|].
    apply occurs_in_app_l, occurs_in_refl.
  - destruct l as [|z l]; [by apply elem_of_nil in Hx|].
    change (join sep (y :: z :: l)) with (y +:+ sep +:+ join sep (z :: l)).
    by apply occurs_in_app_r, occurs_in_app_r, IH.
Qed.

(** ** [Set] *)

Lemma set_of_snoc l x : set_of (l ++ [x]) = set_add x (set_of l).
Proof. unfold set_of. by rewrite foldl_app. Qed.

Lemma elem_of_set_add x y s : x ∈ set_add y s ↔ x = y ∨ x ∈ s.
Proof.
  unfold set_add. case_decide.
  - split; [auto|]. by intros [->|?].
  - rewrite elem_of_app, list_elem_of_singleton. tauto.
Qed.

Lemma NoDup_set_add y s : NoDup s → NoDup (set_add y s).
Proof.
  intros Hs. unfold set_add. case_decide; [done|].
  apply NoDup_app. split_and!; [done| |apply NoDup_singleton].
  by intros x Hx ->%list_elem_of_singleton.
Qed.

Lemma elem_of_set_of x l : x ∈ set_of l ↔ x ∈ l.
Proof.
  induction l as [|y l IH] using rev_ind; [done|].
  rewrite set_of_snoc, elem_of_set_add, IH, elem_of_app, list_elem_of_singleton.
  tauto.
Qed.

Lemma NoDup_set_of l : NoDup (set_of l).
Proof.
  induction l as [|y l IH] using rev_ind; [apply NoDup_nil_2|].
  rewrite set_of_snoc. by apply NoDup_set_add.
Qed.

(** Adding elements never moves those already there. *)
Lemma set_of_app l1 l2 : ∃ more, set_of (l1 ++ l2) = set_of l1 ++ more.
Proof.
  induction l2 as [|y l2 IH] using rev_ind.
  - exists []. by rewrite !app_nil_r.
  - destruct IH as [more IH]. rewrite app_assoc, set_of_snoc, IH.
    unfold set_add. case_decide; [by exists more|].
    exists (more ++ [y]). by rewrite <-app_assoc.
Qed.

(** ** [Map] *)

Lemma map_keys_set {V} k (v : V) m : map_keys (map_set k v m) = set_add k (map_keys m).
Proof.
  unfold map_keys, set_add. induction m as [|[k' v'] m IH]; csimpl.
  - destruct (decide (k ∈ [])) as [H|]; [by apply elem_of_nil in H|done].
  - destruct (decide (k' = k)) as [->|Hne]; csimpl.
    + rewrite decide_True; [done|apply elem_of_cons; auto].
    + rewrite IH. destruct (decide (k ∈ m.*1)) as [H1|H1].
      * rewrite decide_True; [done|apply elem_of_cons; auto].
      * rewrite decide_False; [done|].
        intros [?|?]%elem_of_cons; congruence.
Qed.

Lemma NoDup_map_set {V} k (v : V) m : NoDup (map_keys m) → NoDup (map_keys (map_set k v m)).
Proof. rewrite map_keys_set. apply NoDup_set_add. Qed.

(** After [m.set(k, v)] the key [k] holds [v] and the other keys hold
    what they held. *)
Lemma elem_of_map_set {V} k (v : V) m k' v' :
  NoDup (map_keys m) →
  (k', v') ∈ map_set k v m ↔ (k' = k ∧ v' = v) ∨ (k' ≠ k ∧ (k', v') ∈ m).
Proof.
  unfold map_keys. induction m as [|[k0 v0] m IH]; csimpl; intros Hnd.
  - rewrite list_elem_of_singleton. split.
    + intros [= -> ->]. auto.
    + intros [[-> ->]|[_ H]]; [done|by apply elem_of_nil in H].
  - apply NoDup_cons in Hnd as [Hk0 Hnd].
    destruct (decide (k0 = k)) as [->|Hne].
    + rewrite !elem_of_cons. split.
      * intros [[= -> ->]|Hin]; [auto|].
        right. split; [|auto]. intros ->. apply Hk0.
        apply list_elem_of_fmap. by exists (k, v').
      * intros [[-> ->]|[Hne [[= -> ->]|Hin]]]; [auto|done|auto].
    + rewrite !elem_of_cons, IH by done. split.
      * intros [[= -> ->]|[[-> ->]|[? ?]]]; auto.
      * intros [[-> ->]|[? [[= -> ->]|?]]]; auto.
Qed.

End JsFacts.

(* ===================================================================== *)
(** * The command service: aggregation *)
(* ===================================================================== *)

Module CommandServiceFacts.
Import Js JsFacts CommandService.

Lemma build_map_snoc l c : build_map (l ++ [c]) = map_set (name c) c (build_map l).
Proof. unfold build_map. by rewrite foldl_app. Qed.

(** Keys keep the order of first insertion. *)
Lemma build_map_keys l : map_keys (build_map l) = set_of (name <$> l).
Proof.
  induction l as [|c l IH] using rev_ind; [done|].
  rewrite build_map_snoc, map_keys_set, IH, fmap_app. csimpl.
  by rewrite set_of_snoc.
Qed.

Lemma build_map_NoDup l : NoDup (map_keys (build_map l)).
Proof. rewrite build_map_keys. apply NoDup_set_of. Qed.

Lemma last_named_snoc n l c :
  last_named n (l ++ [c]) = if decide (name c = n) then Some c else last_named n l.
Proof.
  unfold last_named. rewrite filter_app, filter_cons, filter_nil.
  case_decide; [by rewrite last_snoc|by rewrite app_nil_r].
Qed.

(** Values are those of the last occurrence. *)
Lemma build_map_values l k v : (k, v) ∈ build_map l → last_named k l = Some v.
Proof.
  revert k v. induction l as [|c l IH] using rev_ind; intros k v.
  - by intros ?%elem_of_nil.
  - rewrite build_map_snoc, elem_of_map_set by apply build_map_NoDup.
    rewrite last_named_snoc. intros [[-> ->]|[Hne Hin]].
    + by rewrite decide_True.
    + rewrite decide_False by done. by apply IH.
Qed.

Lemma omap_keys_values {V} (f : string → option V) (m : Map V) :
  (∀ k v, (k, v) ∈ m → f k = Some v) → omap f (map_keys m) = map_values m.
Proof.
  unfold map_keys, map_values. induction m as [|[k v] m IH]; intros H; [done|].
  csimpl. rewrite (H k v) by (apply elem_of_cons; auto).
  f_equal. apply IH. intros k' v' Hin. apply H, elem_of_cons. auto.
Qed.

(** The [Map] of the source computes the merge of the specification. *)
Lemma build_map_dedup l : map_values (build_map l) = dedup_last_wins l.
Proof.
  unfold dedup_last_wins. rewrite <-build_map_keys.
  symmetry. apply omap_keys_values. intros k v. apply build_map_values.
Qed.

Lemma last_named_Some n l c : last_named n l = Some c → c ∈ l ∧ name c = n.
Proof.
  unfold last_named. intros H%last_Some_elem_of.
  by apply list_elem_of_filter in H as [? ?].
Qed.

Lemma elem_of_dedup l c : c ∈ dedup_last_wins l ↔ last_named (name c) l = Some c.
Proof.
  unfold dedup_last_wins. rewrite list_elem_of_omap. split.
  - intros (n & _ & Hn). by destruct (last_named_Some _ _ _ Hn) as [_ <-].
  - intros H. exists (name c). split; [|done].
    apply elem_of_set_of, list_elem_of_fmap. exists c.
    by destruct (last_named_Some _ _ _ H).
Qed.

Lemma dedup_names l : name <$> dedup_last_wins l = set_of (name <$> l).
Proof.
  rewrite <-build_map_dedup, <-build_map_keys.
  unfold map_values, map_keys.
  assert (∀ k v, (k, v) ∈ build_map l → name v = k) as H.
  { intros k v Hin%build_map_values. by destruct (last_named_Some _ _ _ Hin). }
  induction (build_map l) as [|[k v] m IH]; [done|]. csimpl.
  rewrite (H k v) by (apply elem_of_cons; auto).
  f_equal. apply IH. intros k' v' Hin. apply H, elem_of_cons. auto.
Qed.

Lemma dedup_NoDup l : NoDup (name <$> dedup_last_wins l).
Proof. rewrite dedup_names. apply NoDup_set_of. Qed.

Lemma dedup_subset l c : c ∈ dedup_last_wins l → c ∈ l.
Proof. rewrite elem_of_dedup. intros H. by destruct (last_named_Some _ _ _ H). Qed.

(** ** The two loops over the settled results *)

Lemma collect_snoc rs r : collect (rs ++ [r]) = collect_step (collect rs) r.
Proof. unfold collect. by rewrite foldl_app. Qed.

Lemma collect_spec rs : collect rs = (fulfilled_values rs, rejection_reasons rs).
Proof.
  unfold fulfilled_values, rejection_reasons.
  induction rs as [|r rs IH] using rev_ind; [done|].
  rewrite collect_snoc, IH, !bind_app. destruct r; csimpl; by rewrite !app_nil_r.
Qed.

Lemma catalog_of_spec rs : catalog_of rs = dedup_last_wins (fulfilled_values rs).
Proof. unfold catalog_of. by rewrite collect_spec, build_map_dedup. Qed.

(** ** Calling the loaders *)

#[local] Arguments settled_of : simpl never.

Lemma settled_of_Some l p :
  settled_of l = Some p ↔ behaviour l (invocations l) = ReturnsPromise p.
Proof. unfold settled_of. destruct (behaviour _ _); naive_solver. Qed.

Lemma call_loaders_promises ls ps :
  promised ls = Some ps → call_loaders ls = (Ok ps, invoked <$> ls).
Proof.
  revert ps. induction ls as [|l ls IH]; intros ps; csimpl.
  - by intros [= <-].
  - destruct (settled_of l) as [p|] eqn:Hl; [|done].
    apply settled_of_Some in Hl as ->.
    destruct (promised ls) as [ps'|]; [|done].
    intros [= <-]. by rewrite (IH ps').
Qed.

Lemma call_loaders_Ok ls ps ls' :
  call_loaders ls = (Ok ps, ls') → promised ls = Some ps ∧ ls' = invoked <$> ls.
Proof.
  revert ps ls'. induction ls as [|l ls IH]; intros ps ls'; csimpl.
  - by intros [= <- <-].
  - destruct (behaviour l (invocations l)) as [p|e] eqn:Hl; [|done].
    apply settled_of_Some in Hl as ->.
    destruct (call_loaders ls) as [[ps'|e] ls''] eqn:Hc; [|done].
    intros [= <- <-]. destruct (IH _ _ eq_refl) as [Hm ->].
    by rewrite Hm.
Qed.

(** A loader that throws before handing back a promise ends the call. *)
Lemma call_loaders_throw ls1 l ls2 e :
  Forall (λ l, is_Some (settled_of l)) ls1 →
  behaviour l (invocations l) = ThrowsSync e →
  call_loaders (ls1 ++ l :: ls2) = (Throw e, (invoked <$> ls1) ++ invoked l :: ls2).
Proof.
  intros Hls1 Hl. induction Hls1 as [|l1 ls1 [p Hp] _ IH]; csimpl.
  - by rewrite Hl.
  - apply settled_of_Some in Hp as ->. by rewrite IH.
Qed.

Lemma loadCommands_promises s σ ps :
  promised (loaders s) = Some ps →
  loadCommands s σ = (Ok (), service_after s σ, store_after σ ps).
Proof.
  intros H. unfold loadCommands. rewrite (call_loaders_promises _ _ H).
  unfold store_after, service_after, catalog_of. by rewrite collect_spec.
Qed.

Lemma loadCommands_Ok s σ s' σ' :
  loadCommands s σ = (Ok (), s', σ') →
  ∃ ps, promised (loaders s) = Some ps
        ∧ s' = service_after s σ ∧ σ' = store_after σ ps.
Proof.
  unfold loadCommands.
  destruct (call_loaders (loaders s)) as [[ps|e] ls] eqn:Hc; [|done].
  destruct (call_loaders_Ok _ _ _ Hc) as [Hps ->].
  rewrite collect_spec. csimpl. intros [= <- <-]. exists ps.
  unfold store_after, service_after, catalog_of. by rewrite collect_spec.
Qed.

Lemma published_after s σ ps :
  published (service_after s σ) (store_after σ ps) = dedup_last_wins (fulfilled_values ps).
Proof.
  unfold published, getCommands, elements. csimpl.
  rewrite list_lookup_middle by done. csimpl. apply catalog_of_spec.
Qed.

(** The array published by a completed call is frozen: pushing to it
    throws and changes nothing. *)
Lemma published_frozen s σ s' σ' c :
  loadCommands s σ = (Ok (), s', σ') →
  ∃ m, push (getCommands s') c σ' = (Throw (TypeError m), σ').
Proof.
  intros (ps & _ & -> & ->)%loadCommands_Ok.
  unfold push, getCommands. csimpl. rewrite list_lookup_middle by done. csimpl.
  eauto.
Qed.

Lemma fulfilled_values_all_rejected ps :
  Forall (λ p, ∃ e, p = rejected e) ps → fulfilled_values ps = [].
Proof.
  unfold fulfilled_values. induction 1 as [|p ps [e ->] _ IH]; [done|]. by csimpl.
Qed.

End CommandServiceFacts.

(* ===================================================================== *)
(** * The command service: the properties of the specification *)
(* ===================================================================== *)

Section CommandServiceProperties.
Import Js JsFacts CommandService CommandServiceFacts.

(** C3, on the code: a loader can fail by throwing before it hands back a
    promise (its [loadCommands] need not be [async]).  Then
    [this.loaders.map] throws, [Promise.allSettled] is never reached, the
    promise of [loadCommands()] is rejected with the loader's error and
    nothing is published, although the first loader was fulfilled with a
    command: the failure of one loader has prevented the other from
    succeeding. *)
Lemma loadCommands_sync_throw_escapes :
  let ls := [loader_of [mockCommandA]; throwing_loader (Error "Loader failed")] in
  let s := (construct ls empty_store).1 in
  let σ := (construct ls empty_store).2 in
  fulfilled_outputs (loaders s) = [mockCommandA]
  ∧ (loadCommands s σ).1.1 = Throw (Error "Loader failed")
  ∧ published (loadCommands s σ).1.2 (loadCommands s σ).2 = []
  ∧ ¬ ∃ s' σ', loadCommands s σ = (Ok (), s', σ')
               ∧ published s' σ' = dedup_last_wins (fulfilled_outputs (loaders s)).
Proof.
  split_and!; [done..|]. intros (s' & σ' & H & _). vm_compute in H. discriminate.
Qed.

(** The isolation the method documents does hold for loaders that fail by
    rejecting.  For every list of registered loaders whose calls all hand
    back a promise, some or all of which are rejected, [loadCommands()] resolves, and the published
    catalog is the merge without duplicates, in registration order, of
    exactly the fulfilled loaders' outputs: one command per name, names in
    the order first met, each with the last command met under it.  The
    reasons of the rejections go to [console.debug].  If every loader is
    rejected the catalog is empty. *)
Theorem loadCommands_isolates_rejections (s : Service) (σ : Store) (ps : list Settled) :
  promised (loaders s) = Some ps →
  ∃ s' σ',
    loadCommands s σ = (Ok (), s', σ')
    ∧ published s' σ' = dedup_last_wins (fulfilled_values ps)
    ∧ NoDup (name <$> published s' σ')
    ∧ name <$> published s' σ' = set_of (name <$> fulfilled_values ps)
    ∧ (∀ c, c ∈ published s' σ' ↔ last_named (name c) (fulfilled_values ps) = Some c)
    ∧ debug_log σ' = debug_log σ ++ rejection_reasons ps
    ∧ (Forall (λ p, ∃ e, p = rejected e) ps → published s' σ' = []).
Proof.
  intros Hps. exists (service_after s σ), (store_after σ ps).
  rewrite published_after. split_and!.
  - by apply loadCommands_promises.
  - done.
  - apply dedup_NoDup.
  - apply dedup_names.
  - intros c. apply elem_of_dedup.
  - done.
  - intros Hall. by rewrite (fulfilled_values_all_rejected _ Hall).
Qed.

(** One loader fulfilled, one rejected: the test of the suite. *)
Lemma loadCommands_isolates_rejections_witness :
  let s := (construct [loader_of [mockCommandA];
                       rejecting_loader (Error "Loader failed")] empty_store).1 in
  let σ := (construct [loader_of [mockCommandA];
                       rejecting_loader (Error "Loader failed")] empty_store).2 in
  promised (loaders s) = Some [fulfilled [mockCommandA]; rejected (Error "Loader failed")]
  ∧ ∃ s' σ',
      loadCommands s σ = (Ok (), s', σ')
      ∧ published s' σ' = [mockCommandA]
      ∧ debug_log σ' = [Error "Loader failed"].
Proof.
  split; [reflexivity|].
  destruct (loadCommands_isolates_rejections
              (construct [loader_of [mockCommandA];
                          rejecting_loader (Error "Loader failed")] empty_store).1
              (construct [loader_of [mockCommandA];
                          rejecting_loader (Error "Loader failed")] empty_store).2
              [fulfilled [mockCommandA]; rejected (Error "Loader failed")]
              eq_refl)
    as (s' & σ' & Hload & Hpub & _ & _ & _ & Hlog & _).
  exists s', σ'. split; [exact Hload|]. split; [exact Hpub|exact Hlog].
Defined.

(** The override scenario of the test suite, with an empty loader in
      between: three commands, the override in the place of the command it
      replaces. *)
Example override_scenario :
    let s := (construct [loader_of [mockCommandA; mockCommandB]; loader_of [];
                         loader_of [mockCommandB_Override; mockCommandC]] empty_store).1 in
    let σ := (construct [loader_of [mockCommandA; mockCommandB]; loader_of [];
                         loader_of [mockCommandB_Override; mockCommandC]] empty_store).2 in
    (loadCommands s σ).1.1 = Ok ()
    ∧ published (loadCommands s σ).1.2 (loadCommands s σ).2
      = [mockCommandA; mockCommandB_Override; mockCommandC].
Proof. by vm_compute. Qed.

(** When the later list also has a command named [x], the last command
    named [x] of the whole is the last one of the later list. *)
Lemma last_named_app_r x out1 out2 :
  x ∈ name <$> out2 → last_named x (out1 ++ out2) = last_named x out2.
Proof.
  intros (c & -> & Hc)%list_elem_of_fmap. unfold last_named. rewrite filter_app.
  assert (c ∈ filter (λ c', name c' = name c) out2) as Hin
    by (by apply list_elem_of_filter).
  destruct (filter (λ c', name c' = name c) out2) as [|d l] using rev_ind.
  - by apply elem_of_nil in Hin.
  - by rewrite app_assoc, !last_snoc.
Qed.

(** C4: when two loaders registered in the order [L1; L2] both produce a
    command named [x], the catalog published by [loadCommands()] holds under
    [x] the command of [L2] (the last one [L2] gives under that name), at
    the position [x] has among the names of [L1]; in general the names of
    the catalog are in the order in which they were first met and each
    carries the last command met under it. *)
Theorem last_registration_wins_first_position
    (s : Service) (σ : Store) (L1 L2 : Loader) (out1 out2 : list SlashCommand)
    (x : string) :
  loaders s = [L1; L2] →
  settled_of L1 = Some (fulfilled out1) →
  settled_of L2 = Some (fulfilled out2) →
  x ∈ name <$> out1 →
  x ∈ name <$> out2 →
  ∃ s' σ' i c,
    loadCommands s σ = (Ok (), s', σ')
    ∧ list_find (λ c', name c' = x) (published s' σ') = Some (i, c)
    ∧ last_named x out2 = Some c
    ∧ c ∈ out2
    ∧ position x (set_of (name <$> out1)) = Some i
    ∧ name <$> published s' σ' = set_of (name <$> (out1 ++ out2))
    ∧ (∀ c', c' ∈ published s' σ' → last_named (name c') (out1 ++ out2) = Some c').
Proof.
  intros Hls H1 H2 Hx1 Hx2.
  assert (promised (loaders s) = Some [fulfilled out1; fulfilled out2]) as Hps.
  { rewrite Hls. simpl. by rewrite H1, H2. }
  exists (service_after s σ), (store_after σ [fulfilled out1; fulfilled out2]).
  rewrite published_after.
  replace (fulfilled_values [fulfilled out1; fulfilled out2]) with (out1 ++ out2)
    by (unfold fulfilled_values; csimpl; by rewrite app_nil_r).
  (* the position of [x] among the names of [L1] *)
  assert (x ∈ set_of (name <$> out1)) as Hin by (by apply elem_of_set_of).
  destruct (list_find_elem_of (λ k, k = x) _ x Hin eq_refl) as [[i k] Hfind].
  assert (k = x) as -> by (by apply list_find_Some in Hfind as (_ & ? & _)).
  (* it is also its position among the names of the catalog *)
  assert (list_find (λ k, k = x) (name <$> dedup_last_wins (out1 ++ out2)) = Some (i, x))
    as Hnames.
  { rewrite dedup_names, fmap_app.
    destruct (set_of_app (name <$> out1) (name <$> out2)) as [more ->].
    apply list_find_app_Some. by left. }
  rewrite list_find_fmap in Hnames.
  destruct (list_find ((λ k, k = x) ∘ name) (dedup_last_wins (out1 ++ out2)))
    as [[i' c]|] eqn:Hc; [|done].
  simpl in Hnames. injection Hnames as -> Hcx.
  assert (last_named x out2 = Some c) as Hlast.
  { rewrite <-(last_named_app_r x out1 out2 Hx2), <-Hcx.
    apply elem_of_dedup. by apply list_find_Some in Hc as (?%list_elem_of_lookup_2 & _). }
  exists i, c. split_and!.
  - by apply loadCommands_promises.
  - exact Hc.
  - exact Hlast.
  - by destruct (last_named_Some _ _ _ Hlast).
  - unfold position. by rewrite Hfind.
  - apply dedup_names.
  - intros c'. apply elem_of_dedup.
Qed.

(** The override of the test suite: [command-b] of the second loader takes
    the second place. *)
Lemma last_registration_wins_first_position_witness :
  let s := (construct [loader_of [mockCommandA; mockCommandB];
                       loader_of [mockCommandB_Override; mockCommandC]] empty_store).1 in
  let σ := (construct [loader_of [mockCommandA; mockCommandB];
                       loader_of [mockCommandB_Override; mockCommandC]] empty_store).2 in
  ∃ s' σ',
    loadCommands s σ = (Ok (), s', σ')
    ∧ list_find (λ c', name c' = "command-b") (published s' σ')
      = Some (1, mockCommandB_Override)
    ∧ name <$> published s' σ' = ["command-a"; "command-b"; "command-c"].
Proof.
  destruct (last_registration_wins_first_position
              (construct [loader_of [mockCommandA; mockCommandB];
                          loader_of [mockCommandB_Override; mockCommandC]] empty_store).1
              (construct [loader_of [mockCommandA; mockCommandB];
                          loader_of [mockCommandB_Override; mockCommandC]] empty_store).2
              (loader_of [mockCommandA; mockCommandB])
              (loader_of [mockCommandB_Override; mockCommandC])
              [mockCommandA; mockCommandB] [mockCommandB_Override; mockCommandC]
              "command-b" eq_refl eq_refl eq_refl)
    as (s' & σ' & i & c & Hload & Hfind & Hlast & _ & Hpos & Hnames & _).
  - apply list_elem_of_In. simpl. tauto.
  - apply list_elem_of_In. simpl. tauto.
  - exists s', σ'. split; [exact Hload|]. split; [|exact Hnames].
    injection Hlast as <-. injection Hpos as <-. exact Hfind.
Defined.

(** C5, on the code: the array a fresh service holds is the literal [[]] of
    the field initialiser, which nothing freezes.  Pushing to the array
    [getCommands()] returns then succeeds, and since it is the service's own
    array the service publishes the pushed command. *)
Theorem fresh_service_array_is_mutable (ls : list Loader) (σ : Store) (c : SlashCommand) :
  let s := (construct ls σ).1 in
  let σ0 := (construct ls σ).2 in
  published s σ0 = []
  ∧ (push (getCommands s) c σ0).1 = Ok 1
  ∧ published s (push (getCommands s) c σ0).2 = [c].
Proof.
  unfold construct, alloc, published, getCommands, push, elements. csimpl.
  rewrite list_lookup_middle by done. csimpl. split_and!; [done..|].
  rewrite list_lookup_insert_eq; [done|]. rewrite length_app. simpl. lia.
Qed.

(** C6, on the code: the second of two calls in a row need not replace the
    catalog.  A loader that is fulfilled with [command-a] at its first call
    and throws before handing back a promise at its second makes the second
    [loadCommands()] reject at [this.loaders.map], before the assignment to
    [this.commands]: the loaders gave the second call nothing, and yet
    [command-a], which only the first call had, is still published. *)
Lemma second_load_sync_throw_keeps_first_catalog :
  let l := scripted_loader [ReturnsPromise (fulfilled [mockCommandA]);
                            ThrowsSync (Error "Loader failed")] in
  let s := (construct [l] empty_store).1 in
  let σ := (construct [l] empty_store).2 in
  let first := loadCommands s σ in
  let second := loadCommands first.1.2 first.2 in
  first.1.1 = Ok ()
  ∧ published first.1.2 first.2 = [mockCommandA]
  ∧ fulfilled_outputs (loaders first.1.2) = []
  ∧ second.1.1 = Throw (Error "Loader failed")
  ∧ published second.1.2 second.2 = [mockCommandA]
  ∧ ¬ (∀ c, c ∈ published second.1.2 second.2 →
            c ∈ fulfilled_outputs (loaders first.1.2)).
Proof.
  intros l s σ first second. split_and!; [reflexivity..|].
  intros Hall. specialize (Hall mockCommandA).
  assert (mockCommandA ∈ published second.1.2 second.2) as Hin
    by (apply list_elem_of_In; vm_compute; left; reflexivity).
  apply Hall in Hin. apply list_elem_of_In in Hin. vm_compute in Hin. exact Hin.
Qed.

(** The replacement does hold for calls that complete.  After two calls of
    [loadCommands()] in a row that both resolve, the catalog is the merge of
    the outputs the loaders gave to the second call and of nothing else: a
    command that only the first call had published is gone.  The second
    call publishes a new array and leaves the first one as it was. *)
Theorem second_load_replaces_catalog
    (s : Service) (σ : Store) (s1 s2 : Service) (σ1 σ2 : Store) :
  loadCommands s σ = (Ok (), s1, σ1) →
  loadCommands s1 σ1 = (Ok (), s2, σ2) →
  ∃ ps2,
    promised (loaders s1) = Some ps2
    ∧ published s2 σ2 = dedup_last_wins (fulfilled_values ps2)
    ∧ (∀ c, c ∈ published s2 σ2 → c ∈ fulfilled_values ps2)
    ∧ (∀ c, c ∈ published s1 σ1 → c ∉ fulfilled_values ps2 → c ∉ published s2 σ2)
    ∧ getCommands s2 ≠ getCommands s1
    ∧ elements (getCommands s1) σ2 = published s1 σ1.
Proof.
  intros (ps1 & _ & -> & ->)%loadCommands_Ok (ps2 & Hps2 & -> & ->)%loadCommands_Ok.
  exists ps2. rewrite published_after. split_and!.
  - done.
  - done.
  - apply dedup_subset.
  - intros c _ Hnot Hin. by apply Hnot, dedup_subset.
  - unfold getCommands. csimpl. rewrite length_app. simpl. lia.
  - unfold published, getCommands, elements. csimpl.
    rewrite lookup_app_l; [done|]. rewrite length_app. simpl. lia.
Qed.

(** The reload of the test suite: first [command-a], then [command-b] and
    [command-c]. *)
Lemma second_load_replaces_catalog_witness :
  let l := scripted_loader [ReturnsPromise (fulfilled [mockCommandA]);
                            ReturnsPromise (fulfilled [mockCommandB; mockCommandC])] in
  let s := (construct [l] empty_store).1 in
  let σ := (construct [l] empty_store).2 in
  let first := loadCommands s σ in
  let second := loadCommands first.1.2 first.2 in
  published first.1.2 first.2 = [mockCommandA]
  ∧ published second.1.2 second.2 = [mockCommandB; mockCommandC]
  ∧ mockCommandA ∉ published second.1.2 second.2.
Proof.
  intros l s σ first second.
  destruct (second_load_replaces_catalog s σ first.1.2 second.1.2 first.2 second.2
              eq_refl eq_refl)
    as (ps2 & Hps2 & Hpub & _ & Hgone & _).
  injection Hps2 as <-.
  split; [reflexivity|]. split; [exact Hpub|].
  apply Hgone.
  - apply list_elem_of_In. simpl. tauto.
  - intros Hin%list_elem_of_In. simpl in Hin.
    destruct Hin as [H|[H|[]]]; discriminate H.
Defined.

End CommandServiceProperties.

(* ===================================================================== *)
(** * The prompt runner: the properties of the specification *)
(* ===================================================================== *)

Section RunnerProperties.
Import Js JsFacts Runner.
Context {P : Platform}.

#[local] Open Scope runner_scope.

(** C7: when [loadSettings] answers with at least one error, the call
    throws the configuration error, whose message is the lines
    "Erreur dans <path>: <message>" of all the errors joined by line feeds,
    so that every path and every message occurs in it.  Nothing has been
    asked of the engine by then: the trace of the run is empty and the world
    is the initial one, whatever the environment holds (no configuration
    built, no [validateAuthMethod], no [initialize], no [refreshAuth]). *)
Theorem settings_errors_abort_before_engine
    (proc : Process) (prompt : string) (interactive : bool) (w : World) :
  errors (loadSettings (cwd proc)) ≠ [] →
  run (generateGemini proc prompt interactive) w
    = (Throw (ConfigurationError (errors (loadSettings (cwd proc)))),
       {| world := w; trace := [] |})
  ∧ ∃ diagnostic,
      ConfigurationError (errors (loadSettings (cwd proc))) = Error diagnostic
      ∧ ∀ e, e ∈ errors (loadSettings (cwd proc)) →
          occurs_in ("Erreur dans " +:+ path e +:+ ": " +:+ message e) diagnostic
          ∧ occurs_in (path e) diagnostic
          ∧ occurs_in (message e) diagnostic.
Proof.
  intros Herr. split.
  - unfold run, generateGemini. rewrite decide_True; [done|].
    destruct (errors (loadSettings (cwd proc))); [done|simpl; lia].
  - eexists. split; [reflexivity|]. intros e He.
    assert (occurs_in ("Erreur dans " +:+ path e +:+ ": " +:+ message e)
              (join LF ((λ e, "Erreur dans " +:+ path e +:+ ": " +:+ message e)
                          <$> errors (loadSettings (cwd proc))))) as Hline.
    { apply occurs_in_join, list_elem_of_fmap. by exists e. }
    split_and!; [done| |].
    + eapply occurs_in_trans; [|exact Hline].
      apply occurs_in_app_r, occurs_in_app_l, occurs_in_refl.
    + eapply occurs_in_trans; [|exact Hline].
      apply occurs_in_app_r, occurs_in_app_r, occurs_in_app_r, occurs_in_refl.
Qed.

(** C8: when the settings load without error and [GEMINI_API_KEY] is not
    set, the call throws the error whose message names [USER_SETTINGS_PATH]
    and [GEMINI_API_KEY]; nothing has been asked of the engine by then. *)
Theorem missing_credential_rejects
    (proc : Process) (prompt : string) (interactive : bool) (w : World) :
  errors (loadSettings (cwd proc)) = [] →
  env proc !! "GEMINI_API_KEY" = None →
  run (generateGemini proc prompt interactive) w
    = (Throw AuthenticationError_missing, {| world := w; trace := [] |})
  ∧ ∃ diagnostic,
      AuthenticationError_missing = Error diagnostic
      ∧ occurs_in USER_SETTINGS_PATH diagnostic
      ∧ occurs_in "GEMINI_API_KEY" diagnostic.
Proof.
  intros Herr Hkey. split.
  - unfold run, generateGemini. rewrite Herr, Hkey. by rewrite decide_False by (simpl; lia).
  - eexists. split; [reflexivity|]. split.
    + apply occurs_in_app_r, occurs_in_app_l, occurs_in_refl.
    + exists ("Aucune méthode d'auth. Configure " +:+ USER_SETTINGS_PATH +:+ " ou définis "), "".
      rewrite sapp_nil_r, !sapp_assoc. reflexivity.
Qed.

(** The same holds when the variable is set to the empty string. *)
Lemma empty_credential_rejects
    (proc : Process) (prompt : string) (interactive : bool) (w : World) :
  errors (loadSettings (cwd proc)) = [] →
  env proc !! "GEMINI_API_KEY" = Some "" →
  run (generateGemini proc prompt interactive) w
    = (Throw AuthenticationError_missing, {| world := w; trace := [] |}).
Proof.
  intros Herr Hkey.
  unfold run, generateGemini. rewrite Herr, Hkey. by rewrite decide_False by (simpl; lia).
Qed.

(** ** Running the program symbolically *)

Ltac unfold_runner :=
    unfold run, generateGemini, applyNonInteractiveRestrictions, resolve_question,
      try_catch, bind, call, query, emit, draw_random, ret, throw in *.

(** Splits on the next answer of a collaborator or the next test. *)
Ltac next_case :=
    match goal with
    | |- context [let '(_, _) := ?f in _] => destruct f as [? ?] eqn:?
    | H : context [let '(_, _) := ?f in _] |- _ => destruct f as [? ?] eqn:?
    | |- context [match ?x with _ => _ end] => destruct x eqn:?
    | H : context [match ?x with _ => _ end] |- _ => destruct x eqn:?
    end.

Ltac run_program := unfold_runner; repeat (next_case; simplify_eq/=).

(** Finds the event of a hypothesis [ev ∈ trace] in a trace that is
      known, leaving one goal for each place where it can be. *)
Ltac find_event H :=
    repeat (apply elem_of_app in H as [H|H]);
    repeat (apply elem_of_cons in H as [H|H]);
    try (by apply elem_of_nil in H); simplify_eq/=.

(** The wrapper never is the failure it wraps. *)
Lemma ExecutionError_fresh (e : Thrown) : ExecutionError e ≠ e.
Proof.
  unfold ExecutionError. destruct e as [m|m|v]; [|done..].
  intros [= H]. apply (f_equal String.length) in H.
  rewrite sapp_length in H.
  destruct m as [|a m]; simpl in H; rewrite ?sapp_length in H; simpl in H; lia.
Qed.

(** C10: when the engine's execution fails in the interactive branch
    (interactive hint, or standard input is a terminal), the call fails with
    that very failure; in the other branch it fails with the execution
    error, a new [Error] whose message carries the string conversion of the
    failure. *)
Theorem engine_failure_propagation
    (proc : Process) (prompt : string) (interactive : bool) (w : World)
    (entry : EngineEntry) (c : Config) (q id : string) (e : Thrown) :
  EvRun entry c q id (Throw e) ∈ trace (run (generateGemini proc prompt interactive) w).2 →
  (run (generateGemini proc prompt interactive) w).1
    = (if interactive || stdin_isTTY proc then Throw e else Throw (ExecutionError e))
  ∧ ExecutionError e ≠ e
  ∧ ∃ diagnostic, ExecutionError e = Error diagnostic ∧ occurs_in (to_string e) diagnostic.
Proof.
  intros Hev. split_and!.
  - revert Hev. run_program; intros Hev; find_event Hev; done.
  - apply ExecutionError_fresh.
  - eexists. split; [reflexivity|]. apply occurs_in_app_r, occurs_in_refl.
Qed.

(** The exclusions of the restricted settings: the ones of the settings,
    then the three tool names, each once. *)
Lemma restricted_excludeTools (settings : LoadedSettings) :
  ∃ tools,
    settings_excludeTools (restricted_settings settings) = Some tools
    ∧ ShellTool_Name ∈ tools ∧ EditTool_Name ∈ tools ∧ WriteFileTool_Name ∈ tools
    ∧ (∀ t, t ∈ default [] (settings_excludeTools (merged settings)) → t ∈ tools)
    ∧ (∀ t, t ∈ tools →
         t ∈ default [] (settings_excludeTools (merged settings))
         ∨ t = ShellTool_Name ∨ t = EditTool_Name ∨ t = WriteFileTool_Name)
    ∧ NoDup tools.
Proof.
  eexists. split; [reflexivity|]. unfold array_from_set, newExcludeTools.
  split_and!; try (apply elem_of_set_of; set_solver).
  - intros t Ht. apply elem_of_set_of. set_solver.
  - intros t Ht. apply (proj1 (elem_of_set_of _ _)) in Ht.
    rewrite elem_of_app, !elem_of_cons in Ht. rewrite elem_of_nil in Ht. tauto.
  - apply NoDup_set_of.
Qed.

(** C1: in a call that takes the non-interactive branch (no interactive
    hint, standard input not a terminal), whenever the engine is run, it is
    through its non-interactive entry, on the prompt as given, and the trace
    of the call is one of two.  If the engine answered an approval mode
    other than [YOLO] for the first configuration, the configuration it runs
    was built from the settings whose exclusions are those of the settings
    followed by the shell, edit and write tool names, without duplicates, and
    with [yolo: true], and was initialised.  If it answered [YOLO], the
    configuration it runs is the first one, initialised once more and
    otherwise left as it was. *)
Theorem non_interactive_run_is_restricted
    (proc : Process) (prompt : string) (w : World)
    (entry : EngineEntry) (c : Config) (q id : string) (r : Outcome unit) :
  stdin_isTTY proc = false →
  EvRun entry c q id r ∈ trace (run (generateGemini proc prompt false) w).2 →
  let settings := loadSettings (cwd proc) in
  let exts := loadExtensions (cwd proc) in
  ∃ (c0 : Config) (m : ApprovalMode) (v : option string),
    let preamble :=
      [EvLogAuthType USE_GEMINI;
       EvLoadCliConfig (merged settings) exts "session-id"
         (generateGemini_defaultCliArgs settings) (Ok c0);
       EvValidateAuthMethod USE_GEMINI v;
       EvInitialize c0 (Ok ());
       EvRefreshAuth c0 USE_GEMINI (Ok ());
       EvGetApprovalMode c0 m] in
    entry = NonInteractiveEntry ∧ q = prompt
    ∧ if decide (m = YOLO) then
        c = c0
        ∧ trace (run (generateGemini proc prompt false) w).2
          = preamble ++ [EvInitialize c0 (Ok ()); EvRandom id;
                         EvRun NonInteractiveEntry c0 prompt id r]
      else
        ∃ sessionId tools,
          trace (run (generateGemini proc prompt false) w).2
          = preamble ++ [EvGetSessionId c0 sessionId;
                         EvLoadCliConfig (restricted_settings settings) exts sessionId
                           (restrictions_defaultCliArgs settings) (Ok c);
                         EvInitialize c (Ok ()); EvRandom id;
                         EvRun NonInteractiveEntry c prompt id r]
          ∧ settings_excludeTools (restricted_settings settings) = Some tools
          ∧ ShellTool_Name ∈ tools ∧ EditTool_Name ∈ tools ∧ WriteFileTool_Name ∈ tools
          ∧ (∀ t, t ∈ default [] (settings_excludeTools (merged settings)) → t ∈ tools)
          ∧ (∀ t, t ∈ tools →
               t ∈ default [] (settings_excludeTools (merged settings))
               ∨ t = ShellTool_Name ∨ t = EditTool_Name ∨ t = WriteFileTool_Name)
          ∧ NoDup tools
          ∧ yolo (restrictions_defaultCliArgs settings) = true.
Proof.
  intros Htty Hev settings exts. subst settings exts.
  unfold run, generateGemini in *. simpl orb in *. rewrite Htty in *. revert Hev.
  run_program; intros Hev; find_event Hev.
  all: repeat match goal with u : () |- _ => destruct u end.
  all: match goal with
       | H : getApprovalMode ?c0 ?w0 ≠ YOLO |- _ =>
           exists c0, (getApprovalMode c0 w0); eexists;
           (split; [done|]); (split; [done|]); rewrite decide_False by done;
           destruct (restricted_excludeTools (loadSettings (cwd proc)))
             as (tools & ? & ? & ? & ? & ? & ? & ?);
           eexists _, tools; split_and!; done
       | H : ¬ getApprovalMode ?c0 ?w0 ≠ YOLO |- _ =>
           assert (getApprovalMode c0 w0 = YOLO) as HY
             by (by destruct (decide (getApprovalMode c0 w0 = YOLO)));
           exists c0, YOLO; eexists;
           (split; [done|]); (split; [done|]); rewrite decide_True by done;
           rewrite HY; done
       end.
Qed.

(** C2 (amended): in a call that reaches the branch of the interactive
    hint or of the terminal (the settings loaded, the credential was there
    and valid, the engine was initialised and its authentication refreshed),
    the question is the trimmed prompt or, when that is empty, the trimmed
    question of the engine, which is asked only then.  If neither gives a
    non-empty question the call throws the input error and the engine is not
    run.  Otherwise the engine is run through [runNonInteractive], the entry
    the other branch uses, on the unrestricted first configuration and that
    question, and when it succeeds the call answers
    "Réponse interactive générée.". *)
Theorem interactive_branch_dispatch
    (proc : Process) (prompt : string) (interactive : bool) (w : World) (c0 : Config) :
  interactive || stdin_isTTY proc = true →
  EvRefreshAuth c0 USE_GEMINI (Ok ())
    ∈ trace (run (generateGemini proc prompt interactive) w).2 →
  let settings := loadSettings (cwd proc) in
  let exts := loadExtensions (cwd proc) in
  ∃ (v engine_question : option string),
    let preamble :=
      [EvLogAuthType USE_GEMINI;
       EvLoadCliConfig (merged settings) exts "session-id"
         (generateGemini_defaultCliArgs settings) (Ok c0);
       EvValidateAuthMethod USE_GEMINI v;
       EvInitialize c0 (Ok ());
       EvRefreshAuth c0 USE_GEMINI (Ok ())]
      ++ (if truthy (trim prompt) then [] else [EvGetQuestion c0 engine_question]) in
    let question := effective_question prompt engine_question in
    if truthy_opt question then
      ∃ id r,
        trace (run (generateGemini proc prompt interactive) w).2
        = preamble ++ [EvRandom id;
                       EvLog ("🤖 [INTERACTIF] Prompt: " +:+ default "" question);
                       EvRun NonInteractiveEntry c0 (default "" question) id r]
        ∧ (run (generateGemini proc prompt interactive) w).1
          = match r with
            | Ok _ => Ok "Réponse interactive générée."
            | Throw e => Throw e
            end
    else
      trace (run (generateGemini proc prompt interactive) w).2 = preamble
      ∧ (run (generateGemini proc prompt interactive) w).1 = Throw InputError.
Proof.
  intros Hbranch Hev settings exts. subst settings exts.
  unfold run, generateGemini, effective_question, or_else in *.
  rewrite Hbranch in *. revert Hev.
  run_program; intros Hev; find_event Hev.
  all: repeat match goal with u : () |- _ => destruct u end.
  all: match goal with
       | H : negb (truthy_opt (trim_opt (getQuestion ?c ?w'))) = _ |- _ =>
           eexists; exists (getQuestion c w');
           destruct (truthy_opt (trim_opt (getQuestion c w'))); simplify_eq/=;
           try (eexists _, _); by split
       | |- _ => eexists; exists None; eexists _, _; by split
       end.
Qed.

(** C9, on the code: when the settings name no model, the arguments of the
    first configuration fall back to "gemini-2.5-pro" and those of the
    restricted configuration to "gemini-1.5-flash": two fallbacks, not one. *)
Theorem fallback_models_differ (settings : LoadedSettings) :
  truthy_opt (settings_model (merged settings)) = false →
  model (generateGemini_defaultCliArgs settings) = "gemini-2.5-pro"
  ∧ model (restrictions_defaultCliArgs settings) = "gemini-1.5-flash"
  ∧ model (generateGemini_defaultCliArgs settings)
    ≠ model (restrictions_defaultCliArgs settings).
Proof.
  intros H. unfold generateGemini_defaultCliArgs, restrictions_defaultCliArgs, model_or,
    or_else. simpl. by rewrite H.
Qed.

End RunnerProperties.

(* ===================================================================== *)
(** * The properties on the concrete platform *)
(* ===================================================================== *)

Section Runs.
Import Js JsFacts Runner.

(** Finds an event in the trace of a concrete run. *)
Ltac in_trace :=
    apply list_elem_of_In; vm_compute; repeat (first [left; reflexivity | right]).

(** Two broken settings files: both are named in the one diagnostic. *)
Lemma settings_errors_abort_before_engine_witness :
  errors (loadSettings (cwd (Sim.process0 "/broken" (Some "k") true))) ≠ []
  ∧ run (generateGemini (Sim.process0 "/broken" (Some "k") true) "hello" true)
        (Sim.world0 true None (Ok ()))
    = (Throw (Error ("Erreur dans /etc/gemini/settings.json: Unexpected token } in JSON"
                     +:+ LF +:+
                     "Erreur dans /home/u/.gemini/settings.json: Unexpected end of JSON input")),
       {| world := Sim.world0 true None (Ok ()); trace := [] |}).
Proof.
  assert (errors (loadSettings (cwd (Sim.process0 "/broken" (Some "k") true))) ≠ [])
    as Herr by discriminate.
  split; [exact Herr|].
  exact (proj1 (settings_errors_abort_before_engine
                  (Sim.process0 "/broken" (Some "k") true) "hello" true
                  (Sim.world0 true None (Ok ())) Herr)).
Defined.

(** No credential in the environment. *)
Lemma missing_credential_rejects_witness :
  errors (loadSettings (cwd (Sim.process0 "/work" None false))) = []
  ∧ env (Sim.process0 "/work" None false) !! "GEMINI_API_KEY" = None
  ∧ run (generateGemini (Sim.process0 "/work" None false) "hello" false)
        (Sim.world0 true None (Ok ()))
    = (Throw (Error ("Aucune méthode d'auth. Configure /home/u/.gemini/settings.json"
                     +:+ " ou définis GEMINI_API_KEY")),
       {| world := Sim.world0 true None (Ok ()); trace := [] |}).
Proof.
  split; [reflexivity|]. split; [reflexivity|].
  exact (proj1 (missing_credential_rejects
                  (Sim.process0 "/work" None false) "hello" false
                  (Sim.world0 true None (Ok ())) eq_refl eq_refl)).
Defined.

(** The settings of the concrete platform name no model. *)
Lemma fallback_models_differ_witness :
  truthy_opt (settings_model (merged Sim.sound_settings)) = false
  ∧ model (generateGemini_defaultCliArgs Sim.sound_settings) = "gemini-2.5-pro"
  ∧ model (restrictions_defaultCliArgs Sim.sound_settings) = "gemini-1.5-flash".
Proof.
  split; [reflexivity|].
  destruct (fallback_models_differ Sim.sound_settings eq_refl) as (H1 & H2 & _).
  split; [exact H1|exact H2].
Defined.

(** In an untrusted folder the engine answers [DEFAULT], and one run of
    the non-interactive branch builds its two configurations with the two
    fallbacks. *)
Example two_fallbacks_in_one_run :
  let tr := trace (run (generateGemini (Sim.process0 "/work" (Some "k") false)
                          "hello" false)
                       (Sim.world0 false None (Ok ()))).2 in
  (model ∘ Sim.built_with) <$>
    omap (λ ev, match ev with
                | EvLoadCliConfig _ _ _ _ (Ok c) => Some c
                | _ => None
                end) tr
  = ["gemini-2.5-pro"; "gemini-1.5-flash"].
Proof. reflexivity. Qed.

(** The engine fails with [Error "boom"]: with the interactive hint the
    caller gets that error, without it the wrapper. *)
Lemma engine_failure_propagation_witness :
  (run (generateGemini (Sim.process0 "/work" (Some "k") false) "hello" true)
       (Sim.world0 true None (Throw (Error "boom")))).1
  = Throw (Error "boom")
  ∧ (run (generateGemini (Sim.process0 "/work" (Some "k") false) "hello" false)
         (Sim.world0 true None (Throw (Error "boom")))).1
    = Throw (Error "Échec de génération Gemini : Error: boom").
Proof.
  split.
  - refine (proj1 (engine_failure_propagation
                     (Sim.process0 "/work" (Some "k") false) "hello" true
                     (Sim.world0 true None (Throw (Error "boom")))
                     NonInteractiveEntry
                     {| Sim.built_from := merged Sim.sound_settings;
                        Sim.built_with := generateGemini_defaultCliArgs Sim.sound_settings;
                        Sim.session := "session-id" |}
                     "hello" "8c3f1a" (Error "boom") _)).
    in_trace.
  - refine (proj1 (engine_failure_propagation
                     (Sim.process0 "/work" (Some "k") false) "hello" false
                     (Sim.world0 true None (Throw (Error "boom")))
                     NonInteractiveEntry
                     {| Sim.built_from := merged Sim.sound_settings;
                        Sim.built_with := generateGemini_defaultCliArgs Sim.sound_settings;
                        Sim.session := "session-id" |}
                     "hello" "8c3f1a" (Error "boom") _)).
    in_trace.
Defined.

(** C2, as stated, fails: with the interactive hint the engine is run, the
    call answers "Réponse interactive générée.", and yet no interactive entry
    of the engine was used; the one run went through [runNonInteractive]. *)
Lemma interactive_branch_uses_non_interactive_entry :
  let result := run (generateGemini (Sim.process0 "/work" (Some "k") false) "hello" true)
                    (Sim.world0 true None (Ok ())) in
  result.1 = Ok "Réponse interactive générée."
  ∧ (∃ c id, EvRun NonInteractiveEntry c "hello" id (Ok ()) ∈ trace result.2)
  ∧ ¬ ∃ c q id r, EvRun InteractiveEntry c q id r ∈ trace result.2.
Proof.
  split; [reflexivity|]. split.
  - eexists _, _. in_trace.
  - intros (c & q & id & r & H). apply list_elem_of_In in H. vm_compute in H.
    repeat (destruct H as [H|H]; [discriminate H|]). exact H.
Qed.

(** A blank prompt with the interactive hint, and an engine that holds a
    question: the run succeeds and ends with the engine run through
    [runNonInteractive] on the first configuration. *)
Lemma interactive_branch_dispatch_witness :
  let proc := Sim.process0 "/work" (Some "k") false in
  let w := Sim.world0 true (Some " what is new? ") (Ok ()) in
  let c0 := {| Sim.built_from := merged Sim.sound_settings;
               Sim.built_with := generateGemini_defaultCliArgs Sim.sound_settings;
               Sim.session := "session-id" |} in
  effective_question "  " (Some " what is new? ") = Some "what is new?"
  ∧ (run (generateGemini proc "  " true) w).1 = Ok "Réponse interactive générée."
  ∧ ∃ q id r,
      last (trace (run (generateGemini proc "  " true) w).2)
      = Some (EvRun NonInteractiveEntry c0 (default "" (effective_question "  " q)) id r).
Proof.
  intros proc w c0. split; [reflexivity|]. split; [reflexivity|].
  assert (EvRefreshAuth (P := Sim.platform) c0 USE_GEMINI (Ok ())
            ∈ trace (run (generateGemini proc "  " true) w).2) as Hreached by in_trace.
  destruct (interactive_branch_dispatch (P := Sim.platform) proc "  " true w c0
              eq_refl Hreached)
    as (v & q & H).
  cbv zeta in H. exists q.
  destruct (truthy_opt (effective_question "  " q)).
  - destruct H as (id & r & Htr & _). exists id, r.
    rewrite Htr, last_app. reflexivity.
  - destruct H as (_ & Hout). vm_compute in Hout. discriminate Hout.
Defined.

(** An untrusted folder: the engine answers [DEFAULT], and the run is on a
    configuration built with the exclusions of the settings followed by the
    three tool names, the one already there not repeated. *)
Lemma non_interactive_run_is_restricted_witness :
  let proc := Sim.process0 "/work" (Some "k") false in
  let w := Sim.world0 false None (Ok ()) in
  let c := {| Sim.built_from := restricted_settings Sim.sound_settings;
              Sim.built_with := restrictions_defaultCliArgs Sim.sound_settings;
              Sim.session := "session-id" |} in
  stdin_isTTY proc = false
  ∧ EvRun NonInteractiveEntry c "hello" "8c3f1a" (Ok ())
      ∈ trace (run (generateGemini proc "hello" false) w).2
  ∧ ∃ m tools,
      m ≠ YOLO
      ∧ settings_excludeTools (Sim.built_from c) = Some tools
      ∧ tools = ["web_fetch"; "run_shell_command"; "replace"; "write_file"]
      ∧ NoDup tools
      ∧ yolo (Sim.built_with c) = true.
Proof.
  intros proc w c. split; [reflexivity|].
  assert (EvRun (P := Sim.platform) NonInteractiveEntry c "hello" "8c3f1a" (Ok ())
            ∈ trace (run (generateGemini proc "hello" false) w).2) as Hev by in_trace.
  split; [exact Hev|].
  destruct (non_interactive_run_is_restricted (P := Sim.platform) proc "hello" w
              NonInteractiveEntry c
              "hello" "8c3f1a" (Ok ()) eq_refl Hev)
    as (c0 & m & v & _ & _ & H).
  cbv zeta in H. exists m. destruct (decide (m = YOLO)) as [->|Hm].
  - destruct H as (_ & Htr). apply (f_equal length) in Htr.
    vm_compute in Htr. discriminate Htr.
  - destruct H as (sid & tools & _ & Htools & _ & _ & _ & _ & _ & Hnd & Hyolo).
    exists tools. split; [exact Hm|]. split; [exact Htools|].
    split; [|split; [exact Hnd|exact Hyolo]].
    vm_compute in Htools. injection Htools as <-. reflexivity.
Defined.

End Runs.

(* ===================================================================== *)
(** * The command service: further properties *)
(* ===================================================================== *)

Section CommandServiceFurther.
Import Js JsFacts CommandService CommandServiceFacts.

Lemma map_set_fresh {V} k (v : V) (m : Map V) :
  k ∉ map_keys m → map_set k v m = m ++ [(k, v)].
Proof.
  unfold map_keys. induction m as [|[k' v'] m IH]; csimpl; intros Hk; [done|].
  rewrite decide_False by (intros ->; apply Hk, elem_of_cons; auto).
  rewrite IH; [done|]. intros Hin. apply Hk, elem_of_cons. auto.
Qed.

(** Without a name met twice the [Map] keeps every command where it came. *)
Lemma build_map_distinct l :
  NoDup (name <$> l) → build_map l = (λ c, (name c, c)) <$> l.
Proof.
  induction l as [|c l IH] using rev_ind; [done|].
  rewrite fmap_app. csimpl. intros [Hl [Hc _]]%NoDup_app.
  rewrite build_map_snoc, fmap_app, map_set_fresh; rewrite IH by done; [done|].
  unfold map_keys. rewrite <-list_fmap_compose. intros Hin.
  apply (Hc (name c)); [done|]. apply list_elem_of_singleton. done.
Qed.

Lemma dedup_distinct l : NoDup (name <$> l) → dedup_last_wins l = l.
Proof.
  intros Hl. rewrite <-build_map_dedup, build_map_distinct by done.
  unfold map_values. rewrite <-list_fmap_compose. apply list_fmap_id.
Qed.

Lemma last_named_not_named n l : n ∉ name <$> l → last_named n l = None.
Proof.
  intros Hn. unfold last_named.
  destruct (filter (λ c, name c = n) l) as [|c l'] eqn:Hf; [done|].
  exfalso. apply Hn. assert (c ∈ filter (λ c, name c = n) l) as Hc
    by (rewrite Hf; apply elem_of_cons; auto).
  apply list_elem_of_filter in Hc as [<- Hc]. apply list_elem_of_fmap. eauto.
Qed.

Lemma last_named_app n l1 l2 :
  last_named n (l1 ++ l2)
  = match last_named n l2 with Some c => Some c | None => last_named n l1 end.
Proof. unfold last_named. by rewrite filter_app, last_app. Qed.

Lemma fulfilled_values_app ps1 ps2 :
  fulfilled_values (ps1 ++ ps2) = fulfilled_values ps1 ++ fulfilled_values ps2.
Proof. unfold fulfilled_values. apply bind_app. Qed.

(** X11. The array published by a completed [loadCommands()] cannot be
    changed through [getCommands()]: pushing to it throws a [TypeError], and
    the store, hence the catalog, is as it was. *)
Theorem published_catalog_is_frozen
    (s s' : Service) (σ σ' : Store) (c : SlashCommand) :
  loadCommands s σ = (Ok (), s', σ') →
  (∃ m, (push (getCommands s') c σ').1 = Throw (TypeError m))
  ∧ (push (getCommands s') c σ').2 = σ'
  ∧ published s' (push (getCommands s') c σ').2 = published s' σ'.
Proof.
  intros H. destruct (published_frozen s σ s' σ' c H) as [m ->]. eauto.
Qed.

(** X12. A completed [loadCommands()] has called every registered loader
    exactly once, has added one array to the store, and has left every
    array that was already there, the ones handed out earlier included, as
    it was. *)
Theorem completed_load_calls_each_loader_once
    (s s' : Service) (σ σ' : Store) :
  loadCommands s σ = (Ok (), s', σ') →
  invocations <$> loaders s' = S <$> (invocations <$> loaders s)
  ∧ behaviour <$> loaders s' = behaviour <$> loaders s
  ∧ length (arrays σ') = S (length (arrays σ))
  ∧ ∀ l a, arrays σ !! l = Some a → arrays σ' !! l = Some a.
Proof.
  intros (ps & _ & -> & ->)%loadCommands_Ok. unfold service_after, store_after. csimpl.
  split_and!.
  - rewrite <-!list_fmap_compose. by apply list_fmap_ext.
  - rewrite <-!list_fmap_compose. by apply list_fmap_ext.
  - rewrite length_app. simpl. lia.
  - intros l a Hl. by apply lookup_app_l_Some.
Qed.

(** X13. When a loader throws before handing back a promise, and the ones
    registered before it all hand one back, [loadCommands()] is rejected
    with what that loader threw; the loaders registered after it are not
    called, nothing is logged, and the store is as it was, so that the
    catalog published before stays published. *)
Theorem sync_throw_rejects_and_publishes_nothing
    (s : Service) (σ : Store) (ls1 ls2 : list Loader) (l : Loader) (e : Thrown) :
  loaders s = ls1 ++ l :: ls2 →
  Forall (λ l1, is_Some (settled_of l1)) ls1 →
  behaviour l (invocations l) = ThrowsSync e →
  loadCommands s σ
  = (Throw e,
     {| commands := commands s; loaders := (invoked <$> ls1) ++ invoked l :: ls2 |},
     σ)
  ∧ published (loadCommands s σ).1.2 (loadCommands s σ).2 = published s σ.
Proof.
  intros Hls Hls1 Hl.
  assert (loadCommands s σ
          = (Throw e,
             {| commands := commands s;
                loaders := (invoked <$> ls1) ++ invoked l :: ls2 |}, σ)) as H.
  { unfold loadCommands. by rewrite Hls, (call_loaders_throw ls1 l ls2 e Hls1 Hl). }
  by rewrite H.
Qed.

(** X14. When no name is produced twice, nothing is merged away: the
    catalog is the outputs of the fulfilled loaders one after the other, in
    registration order, each in the order its loader gave. *)
Theorem distinct_names_are_all_published
    (s : Service) (σ : Store) (ps : list Settled) :
  promised (loaders s) = Some ps →
  NoDup (name <$> fulfilled_values ps) →
  ∃ s' σ', loadCommands s σ = (Ok (), s', σ')
           ∧ published s' σ' = fulfilled_values ps.
Proof.
  intros Hps Hnd. exists (service_after s σ), (store_after σ ps).
  split; [by apply loadCommands_promises|].
  rewrite published_after. by apply dedup_distinct.
Qed.

(** X15. Loading again from loaders that give back exactly what is
    published publishes the same catalog: the merge changes nothing in a
    list it has produced. *)
Theorem reloading_the_catalog_republishes_it
    (s s1 : Service) (σ σ1 : Store) (ps2 : list Settled) :
  loadCommands s σ = (Ok (), s1, σ1) →
  promised (loaders s1) = Some ps2 →
  fulfilled_values ps2 = published s1 σ1 →
  ∃ s2 σ2, loadCommands s1 σ1 = (Ok (), s2, σ2)
           ∧ published s2 σ2 = published s1 σ1.
Proof.
  intros (ps1 & _ & -> & ->)%loadCommands_Ok Hps2 Hsame.
  eexists _, _. split; [by apply loadCommands_promises|].
  rewrite published_after, Hsame, published_after.
  apply dedup_distinct, dedup_NoDup.
Qed.

(** X16. A loader that is rejected, like a loader that is fulfilled with an
    empty list, leaves the catalog as it would be without that loader. *)
Theorem failed_loader_counts_as_empty
    (s : Service) (σ : Store) (ps1 ps2 : list Settled) (p : Settled) :
  promised (loaders s) = Some (ps1 ++ p :: ps2) →
  (p = fulfilled [] ∨ ∃ e, p = rejected e) →
  ∃ s' σ', loadCommands s σ = (Ok (), s', σ')
           ∧ published s' σ' = catalog_of (ps1 ++ ps2).
Proof.
  intros Hps Hp. exists (service_after s σ), (store_after σ (ps1 ++ p :: ps2)).
  split; [by apply loadCommands_promises|].
  rewrite published_after, catalog_of_spec. f_equal.
  rewrite !fulfilled_values_app. f_equal.
  destruct Hp as [->|[e ->]]; done.
Qed.

(** X17. With any number of loaders, a name belongs to the last fulfilled
    loader that produces it: if a loader produces a command named [x] and no
    fulfilled loader registered after it does, the catalog holds under [x]
    the last command that loader gave under that name, and no other. *)
Theorem latest_producer_owns_the_name
    (s : Service) (σ : Store) (ps1 ps2 : list Settled) (out : list SlashCommand)
    (x : string) :
  promised (loaders s) = Some (ps1 ++ fulfilled out :: ps2) →
  x ∈ name <$> out →
  x ∉ name <$> fulfilled_values ps2 →
  ∃ s' σ' c,
    loadCommands s σ = (Ok (), s', σ')
    ∧ last_named x out = Some c
    ∧ c ∈ published s' σ'
    ∧ ∀ c', c' ∈ published s' σ' → name c' = x → c' = c.
Proof.
  intros Hps Hx Hnot.
  exists (service_after s σ), (store_after σ (ps1 ++ fulfilled out :: ps2)).
  rewrite published_after.
  assert (fulfilled_values (ps1 ++ fulfilled out :: ps2)
          = fulfilled_values ps1 ++ out ++ fulfilled_values ps2) as ->.
  { rewrite fulfilled_values_app. f_equal. }
  assert (∃ c, last_named x out = Some c) as [c Hc].
  { apply list_elem_of_fmap in Hx as (c0 & -> & Hc0). unfold last_named.
    assert (c0 ∈ filter (λ c, name c = name c0) out) as Hin
      by (by apply list_elem_of_filter).
    destruct (filter (λ c, name c = name c0) out) as [|d l'] using rev_ind.
    - by apply elem_of_nil in Hin.
    - rewrite last_snoc. eauto. }
  assert (last_named x (fulfilled_values ps1 ++ out ++ fulfilled_values ps2) = Some c)
    as Hlast.
  { rewrite !last_named_app, (last_named_not_named _ _ Hnot). by rewrite Hc. }
  exists c. split_and!.
  - by apply loadCommands_promises.
  - done.
  - apply elem_of_dedup. by destruct (last_named_Some _ _ _ Hc) as [_ ->].
  - intros c' Hc' Hname. apply elem_of_dedup in Hc'. rewrite Hname, Hlast in Hc'.
    by injection Hc'.
Qed.

Lemma set_of_length l : length (set_of l) ≤ length l.
Proof.
  induction l as [|x l IH] using rev_ind; [done|].
  rewrite set_of_snoc, length_app. unfold set_add. simpl.
  case_decide; [lia|]. rewrite length_app. simpl. lia.
Qed.

(** X18. The catalog holds exactly one command for each name that a
    fulfilled loader produced: every produced name is in it, no name is in
    it that was not produced, and it is never longer than what the loaders
    produced. *)
Theorem catalog_has_one_command_per_name
    (s : Service) (σ : Store) (ps : list Settled) :
  promised (loaders s) = Some ps →
  ∃ s' σ',
    loadCommands s σ = (Ok (), s', σ')
    ∧ (∀ x, x ∈ name <$> published s' σ' ↔ x ∈ name <$> fulfilled_values ps)
    ∧ NoDup (name <$> published s' σ')
    ∧ length (published s' σ') ≤ length (fulfilled_values ps).
Proof.
  intros Hps. exists (service_after s σ), (store_after σ ps).
  rewrite published_after. split_and!.
  - by apply loadCommands_promises.
  - intros x. rewrite dedup_names. apply elem_of_set_of.
  - apply dedup_NoDup.
  - rewrite <-(length_fmap name (dedup_last_wins _)), dedup_names.
    rewrite <-(length_fmap name (fulfilled_values ps)). apply set_of_length.
Qed.

End CommandServiceFurther.

(* ===================================================================== *)
(** * The prompt runner: further properties *)
(* ===================================================================== *)

Section RunnerFurther.
Import Js JsFacts Runner Observe.
Context {P : Platform}.

#[local] Open Scope runner_scope.

Ltac exec_runner :=
  unfold run, generateGemini, applyNonInteractiveRestrictions, resolve_question,
    try_catch, bind, call, query, emit, draw_random, ret, throw in *;
  repeat (match goal with
          | |- context [let '(_, _) := ?f in _] => destruct f as [? ?] eqn:?
          | H : context [let '(_, _) := ?f in _] |- _ => destruct f as [? ?] eqn:?
          | |- context [match ?x with _ => _ end] => destruct x eqn:?
          | H : context [match ?x with _ => _ end] |- _ => destruct x eqn:?
          end; simplify_eq/=).

Ltac locate_event H :=
  repeat (apply elem_of_app in H as [H|H]);
  repeat (apply elem_of_cons in H as [H|H]);
  try (by apply elem_of_nil in H); simplify_eq/=.


(** X2. When building a configuration, initialising it or refreshing its
    authentication fails, in either branch and in the restriction pass as
    well, the call fails with that very failure, not wrapped, and the
    engine is not run. *)
Theorem preparation_failure_propagates
    (proc : Process) (prompt : string) (interactive : bool) (w : World)
    (ev : Event) (e : Thrown) :
  ev ∈ trace (run (generateGemini proc prompt interactive) w).2 →
  preparation_failure ev = Some e →
  (run (generateGemini proc prompt interactive) w).1 = Throw e
  ∧ only is_run (trace (run (generateGemini proc prompt interactive) w).2) = []
  ∧ last (trace (run (generateGemini proc prompt interactive) w).2) = Some ev.
Proof.
  intros Hev Hfail. revert Hev.
  exec_runner; intros Hev; locate_event Hev; done.
Qed.

(** X3. A call runs the engine at most once, as the last thing it does,
    and draws a correlation identifier exactly when it runs the engine: the
    one it runs it with. *)
Theorem engine_runs_at_most_once
    (proc : Process) (prompt : string) (interactive : bool) (w : World) :
  let tr := trace (run (generateGemini proc prompt interactive) w).2 in
  length (only is_run tr) ≤ 1
  ∧ length (only is_draw tr) = length (only is_run tr)
  ∧ ∀ entry c q id r,
      EvRun entry c q id r ∈ tr →
      last tr = Some (EvRun entry c q id r) ∧ only is_draw tr = [EvRandom id].
Proof.
  intros tr. subst tr.
  exec_runner;
    (split_and!; [simpl; lia|done|];
     intros entry c q id r Hev; locate_event Hev; done).
Qed.

(** X4. A call answers only after the engine has run once and succeeded,
    and what it answers tells the branch: "Réponse interactive générée."
    with the interactive hint or a terminal, "Réponse non-interactive
    générée." otherwise. *)
Theorem success_means_engine_succeeded
    (proc : Process) (prompt : string) (interactive : bool) (w : World)
    (answer : string) :
  (run (generateGemini proc prompt interactive) w).1 = Ok answer →
  answer = (if interactive || stdin_isTTY proc
            then "Réponse interactive générée."
            else "Réponse non-interactive générée.")
  ∧ ∃ c q id,
      last (trace (run (generateGemini proc prompt interactive) w).2)
      = Some (EvRun NonInteractiveEntry c q id (Ok ()))
      ∧ only is_run (trace (run (generateGemini proc prompt interactive) w).2)
        = [EvRun NonInteractiveEntry c q id (Ok ())].
Proof.
  exec_runner; intros Hok; simplify_eq.
  all: repeat match goal with u : () |- _ => destruct u end.
  all: split; [done|]; by eexists _, _, _.
Qed.

(** X5. With the interactive hint or a terminal the restriction pass is
    not taken, whatever the approval mode: the approval mode is not read, no
    second configuration is built, and the engine runs on the configuration
    built from the settings as they are, with nothing added to their
    exclusions. *)
Theorem interactive_branch_is_unrestricted
    (proc : Process) (prompt : string) (interactive : bool) (w : World) :
  interactive || stdin_isTTY proc = true →
  let tr := trace (run (generateGemini proc prompt interactive) w).2 in
  only is_restriction_step tr = []
  ∧ length (only is_build tr) ≤ 1
  ∧ ∀ entry c q id r,
      EvRun entry c q id r ∈ tr →
      EvLoadCliConfig (merged (loadSettings (cwd proc))) (loadExtensions (cwd proc))
        "session-id" (generateGemini_defaultCliArgs (loadSettings (cwd proc))) (Ok c)
        ∈ tr.
Proof.
  intros Hbranch tr. subst tr.
  unfold run, generateGemini in *. rewrite Hbranch.
  exec_runner;
    (split_and!; [done|simpl; lia|];
     intros entry c q id r Hev; locate_event Hev;
     apply elem_of_cons; right; apply elem_of_cons; by left).
Qed.

(** X6. In the interactive branch the engine is never run on an empty
    question: the question is the trimmed prompt when that is not empty, and
    otherwise the trimmed question the engine was asked for, which is then
    not empty; and the question was logged.  (The other branch hands the
    prompt over as it is, see C1.) *)
Theorem interactive_question_is_not_empty
    (proc : Process) (prompt : string) (interactive : bool) (w : World)
    (entry : EngineEntry) (c : Config) (q id : string) (r : Outcome unit) :
  interactive || stdin_isTTY proc = true →
  EvRun entry c q id r ∈ trace (run (generateGemini proc prompt interactive) w).2 →
  q ≠ ""
  ∧ (q = trim prompt
     ∨ trim prompt = ""
       ∧ ∃ held, EvGetQuestion c (Some held)
                   ∈ trace (run (generateGemini proc prompt interactive) w).2
                 ∧ q = trim held)
  ∧ EvLog ("🤖 [INTERACTIF] Prompt: " +:+ q)
      ∈ trace (run (generateGemini proc prompt interactive) w).2.
Proof.
  intros Hbranch Hev. unfold run, generateGemini in *. rewrite Hbranch in *.
  revert Hev. exec_runner; intros Hev; locate_event Hev.
  all: split_and!;
    [ | | repeat (first [by (apply elem_of_cons; left) | apply elem_of_cons; right]) ].
  all: lazymatch goal with
       | H : truthy (trim _) = true |- _ ≠ "" =>
           intros Heq; rewrite Heq in H; simpl in H; done
       | H : truthy (trim _) = true |- _ ∨ _ => by left
       | H : context [getQuestion ?c0 ?w0] |- _ =>
           destruct (getQuestion c0 w0) as [held|] eqn:Hheld; [|simpl in *; done];
           simpl in *;
           lazymatch goal with
           | |- _ ≠ "" => intros Heq; rewrite Heq in *; simpl in *; done
           | |- _ ∨ _ =>
               right; split;
                 [match goal with Ht : truthy ?t = false |- ?t = "" => by destruct t end|];
               exists held; split; [|done];
               repeat (first [by (apply elem_of_cons; left) | apply elem_of_cons; right])
           end
       end.
Qed.

(** X8. When the settings name a model, both configurations are built
    with it and with the same arguments throughout: the two fallbacks only
    matter when no model is configured. *)
Theorem configured_model_is_used_by_both (settings : LoadedSettings) (m : string) :
  settings_model (merged settings) = Some m →
  truthy m = true →
  model (generateGemini_defaultCliArgs settings) = m
  ∧ restrictions_defaultCliArgs settings = generateGemini_defaultCliArgs settings.
Proof.
  intros Hm Ht.
  unfold generateGemini_defaultCliArgs, restrictions_defaultCliArgs, model_or, or_else.
  rewrite Hm. simpl. by rewrite Ht.
Qed.

Lemma set_of_NoDup l : NoDup l → set_of l = l.
Proof.
  induction l as [|x l IH] using rev_ind; [done|].
  intros [Hl [Hx _]]%NoDup_app. rewrite set_of_snoc, IH by done.
  unfold set_add. rewrite decide_False; [done|].
  intros Hin. apply (Hx x Hin). by apply list_elem_of_singleton.
Qed.

Lemma set_of_absorbs l t : t ⊆ l → NoDup l → set_of (l ++ t) = l.
Proof.
  intros Ht Hl. induction t as [|x t IH] using rev_ind.
  - rewrite app_nil_r. by apply set_of_NoDup.
  - rewrite app_assoc, set_of_snoc, IH.
    + unfold set_add. rewrite decide_True; [done|]. apply Ht, elem_of_app.
      right. by apply list_elem_of_singleton.
    + intros y Hy. apply Ht, elem_of_app. by left.
Qed.

(** X9. The restriction adds the three tool names behind the exclusions
    of the settings, which keep their order, each name once at its first
    place; restricting settings that are already restricted changes nothing,
    and the model and the other keys are kept. *)
Theorem restriction_is_idempotent (settings : LoadedSettings) (errs : list SettingsError) :
  restricted_settings {| merged := restricted_settings settings; errors := errs |}
  = restricted_settings settings
  ∧ settings_model (restricted_settings settings) = settings_model (merged settings)
  ∧ settings_others (restricted_settings settings) = settings_others (merged settings)
  ∧ ∃ added,
      settings_excludeTools (restricted_settings settings)
      = Some (set_of (default [] (settings_excludeTools (merged settings))) ++ added)
      ∧ ∀ t, t ∈ added →
          t = ShellTool_Name ∨ t = EditTool_Name ∨ t = WriteFileTool_Name.
Proof.
  split_and!; [|done|done|].
  - unfold restricted_settings at 1 3. simpl. do 2 f_equal.
    unfold array_from_set, newExcludeTools at 1. simpl.
    apply set_of_absorbs; [|apply NoDup_set_of].
    intros t Ht. apply elem_of_set_of. unfold newExcludeTools.
    apply elem_of_app. by right.
  - unfold restricted_settings, array_from_set, newExcludeTools. simpl.
    destruct (set_of_app (default [] (settings_excludeTools (merged settings)))
                [ShellTool_Name; EditTool_Name; WriteFileTool_Name]) as [added Hadd].
    exists added. split; [by rewrite Hadd|].
    intros t Ht.
    assert (t ∈ set_of (default [] (settings_excludeTools (merged settings))
                        ++ [ShellTool_Name; EditTool_Name; WriteFileTool_Name])) as Hin
      by (rewrite Hadd; apply elem_of_app; by right).
    apply (proj1 (elem_of_set_of _ _)) in Hin.
    apply elem_of_app in Hin as [Hin|Hin].
    + exfalso. pose proof (NoDup_set_of
        (default [] (settings_excludeTools (merged settings))
         ++ [ShellTool_Name; EditTool_Name; WriteFileTool_Name])) as Hnd.
      rewrite Hadd in Hnd. apply NoDup_app in Hnd as (_ & Hdisj & _).
      apply (Hdisj t); [by apply elem_of_set_of|done].
    + rewrite !elem_of_cons in Hin. rewrite elem_of_nil in Hin. tauto.
Qed.

(** X19. A validation that answers nothing, or an empty message, lets the
    call go on: the configuration that was built is then initialised. *)
Theorem empty_validation_message_is_accepted
    (proc : Process) (prompt : string) (interactive : bool) (w : World)
    (a : AuthType) (v : option string) :
  EvValidateAuthMethod a v ∈ trace (run (generateGemini proc prompt interactive) w).2 →
  truthy_opt v = false →
  ∃ c r,
    EvLoadCliConfig (merged (loadSettings (cwd proc))) (loadExtensions (cwd proc))
      "session-id" (generateGemini_defaultCliArgs (loadSettings (cwd proc))) (Ok c)
      ∈ trace (run (generateGemini proc prompt interactive) w).2
    ∧ EvInitialize c r ∈ trace (run (generateGemini proc prompt interactive) w).2.
Proof.
  intros Hev Hv. revert Hev.
  exec_runner; intros Hev; locate_event Hev; try congruence.
  all: eexists _, _; split;
    [apply elem_of_cons; right; apply elem_of_cons; by left
    |do 3 (apply elem_of_cons; right); apply elem_of_cons; by left].
Qed.

End RunnerFurther.

(* ===================================================================== *)
(** * The further properties on concrete inputs *)
(* ===================================================================== *)

Section FurtherRuns.
Import Js JsFacts Runner Observe CommandService CommandServiceFacts.

Ltac event_in_trace :=
  apply list_elem_of_In; vm_compute; repeat (first [left; reflexivity | right]).

Ltac member := apply list_elem_of_In; simpl; tauto.


(** The engine answers [YOLO] and refuses to be initialised twice: the
    second initialisation, in the restriction pass, fails, and the caller
    gets that failure as it is. *)
Lemma preparation_failure_propagates_witness :
  let w := Lab.world0 None None (Some 1) (Ok ()) YOLO in
  (run (P := Lab.platform) (generateGemini Lab.process0 "hello" false) w).1
  = Throw (Error "Config was already initialized")
  ∧ only is_run (trace (run (P := Lab.platform)
                          (generateGemini Lab.process0 "hello" false) w).2) = [].
Proof.
  intros w.
  assert (EvInitialize (P := Lab.platform) 0 (Throw (Error "Config was already initialized"))
            ∈ trace (run (P := Lab.platform)
                       (generateGemini Lab.process0 "hello" false) w).2) as Hev
    by event_in_trace.
  destruct (preparation_failure_propagates (P := Lab.platform)
              Lab.process0 "hello" false w _ _ Hev eq_refl)
    as (Hout & Hruns & _).
  split; [exact Hout|exact Hruns].
Defined.

(** One run, with the one identifier drawn. *)
Lemma engine_runs_at_most_once_witness :
  let proc := Sim.process0 "/work" (Some "k") false in
  let w := Sim.world0 true None (Ok ()) in
  let c := {| Sim.built_from := merged Sim.sound_settings;
              Sim.built_with := generateGemini_defaultCliArgs Sim.sound_settings;
              Sim.session := "session-id" |} in
  last (trace (run (generateGemini proc "hello" false) w).2)
  = Some (EvRun NonInteractiveEntry c "hello" "8c3f1a" (Ok ()))
  ∧ only is_draw (trace (run (generateGemini proc "hello" false) w).2)
    = [EvRandom "8c3f1a"].
Proof.
  intros proc w c.
  assert (EvRun (P := Sim.platform) NonInteractiveEntry c "hello" "8c3f1a" (Ok ())
            ∈ trace (run (generateGemini proc "hello" false) w).2) as Hev
    by event_in_trace.
  destruct (engine_runs_at_most_once (P := Sim.platform) proc "hello" false w)
    as (_ & _ & Hlast).
  exact (Hlast NonInteractiveEntry c "hello" "8c3f1a" (Ok ()) Hev).
Defined.

(** A successful run without the interactive hint. *)
Lemma success_means_engine_succeeded_witness :
  let proc := Sim.process0 "/work" (Some "k") false in
  let w := Sim.world0 true None (Ok ()) in
  (run (generateGemini proc "hello" false) w).1 = Ok "Réponse non-interactive générée."
  ∧ ∃ c q id,
      only is_run (trace (run (generateGemini proc "hello" false) w).2)
      = [EvRun NonInteractiveEntry c q id (Ok ())].
Proof.
  intros proc w. split; [reflexivity|].
  destruct (success_means_engine_succeeded (P := Sim.platform) proc "hello" false w
              "Réponse non-interactive générée." eq_refl)
    as (_ & c & q & id & _ & Hruns).
  exists c, q, id. exact Hruns.
Defined.

(** An untrusted folder, where the engine answers [DEFAULT], and the
    interactive hint: the run is on the settings' own exclusions. *)
Lemma interactive_branch_is_unrestricted_witness :
  let proc := Sim.process0 "/work" (Some "k") false in
  let w := Sim.world0 false None (Ok ()) in
  let c := {| Sim.built_from := merged Sim.sound_settings;
              Sim.built_with := generateGemini_defaultCliArgs Sim.sound_settings;
              Sim.session := "session-id" |} in
  getApprovalMode c w = DEFAULT
  ∧ EvRun NonInteractiveEntry c "hello" "8c3f1a" (Ok ())
      ∈ trace (run (generateGemini proc "hello" true) w).2
  ∧ only is_restriction_step (trace (run (generateGemini proc "hello" true) w).2) = []
  ∧ settings_excludeTools (Sim.built_from c) = Some ["web_fetch"; "run_shell_command"].
Proof.
  intros proc w c. split; [reflexivity|].
  assert (EvRun (P := Sim.platform) NonInteractiveEntry c "hello" "8c3f1a" (Ok ())
            ∈ trace (run (generateGemini proc "hello" true) w).2) as Hev
    by event_in_trace.
  split; [exact Hev|].
  destruct (interactive_branch_is_unrestricted (P := Sim.platform) proc "hello" true w
              eq_refl)
    as (Hnone & _ & _).
  split; [exact Hnone|reflexivity].
Defined.

(** A blank prompt and an engine that holds a question. *)
Lemma interactive_question_is_not_empty_witness :
  let proc := Sim.process0 "/work" (Some "k") false in
  let w := Sim.world0 true (Some " what is new? ") (Ok ()) in
  let c := {| Sim.built_from := merged Sim.sound_settings;
              Sim.built_with := generateGemini_defaultCliArgs Sim.sound_settings;
              Sim.session := "session-id" |} in
  EvRun NonInteractiveEntry c "what is new?" "8c3f1a" (Ok ())
    ∈ trace (run (generateGemini proc "  " true) w).2
  ∧ "what is new?" ≠ ""
  ∧ EvLog ("🤖 [INTERACTIF] Prompt: " +:+ "what is new?")
      ∈ trace (run (generateGemini proc "  " true) w).2.
Proof.
  intros proc w c.
  assert (EvRun (P := Sim.platform) NonInteractiveEntry c "what is new?" "8c3f1a" (Ok ())
            ∈ trace (run (generateGemini proc "  " true) w).2) as Hev
    by event_in_trace.
  split; [exact Hev|].
  destruct (interactive_question_is_not_empty (P := Sim.platform) proc "  " true w
              NonInteractiveEntry c "what is new?" "8c3f1a" (Ok ()) eq_refl Hev)
    as (Hne & _ & Hlog).
  split; [exact Hne|exact Hlog].
Defined.

(** The variable is there, and empty. *)
Lemma empty_credential_rejects_witness :
  errors (loadSettings (cwd (Sim.process0 "/work" (Some "") false))) = []
  ∧ env (Sim.process0 "/work" (Some "") false) !! "GEMINI_API_KEY" = Some ""
  ∧ (run (generateGemini (Sim.process0 "/work" (Some "") false) "hello" false)
         (Sim.world0 true None (Ok ()))).1
    = Throw (Error ("Aucune méthode d'auth. Configure /home/u/.gemini/settings.json"
                    +:+ " ou définis GEMINI_API_KEY")).
Proof.
  split; [reflexivity|]. split; [reflexivity|].
  exact (f_equal fst (empty_credential_rejects (P := Sim.platform)
                        (Sim.process0 "/work" (Some "") false) "hello" false
                        (Sim.world0 true None (Ok ())) eq_refl eq_refl)).
Defined.

(** Settings that name a model. *)
Lemma configured_model_is_used_by_both_witness :
  settings_model (merged Lab.settings_with_model) = Some "gemini-2.0-flash"
  ∧ model (restrictions_defaultCliArgs Lab.settings_with_model)
    = "gemini-2.0-flash".
Proof.
  split; [reflexivity|].
  destruct (configured_model_is_used_by_both
              Lab.settings_with_model "gemini-2.0-flash" eq_refl eq_refl)
    as (Hm & Heq).
  rewrite Heq. exact Hm.
Defined.

(** A validation that answers the empty string. *)
Lemma empty_validation_message_is_accepted_witness :
  let w := Lab.world0 (Some "") None None (Ok ()) YOLO in
  truthy_opt (Some "") = false
  ∧ (run (P := Lab.platform) (generateGemini Lab.process0 "hello" false) w).1
    = Ok "Réponse non-interactive générée."
  ∧ ∃ c r, EvInitialize (P := Lab.platform) c r
             ∈ trace (run (P := Lab.platform)
                        (generateGemini Lab.process0 "hello" false) w).2.
Proof.
  intros w. split; [reflexivity|]. split; [reflexivity|].
  assert (EvValidateAuthMethod (P := Lab.platform) USE_GEMINI (Some "")
            ∈ trace (run (P := Lab.platform)
                       (generateGemini Lab.process0 "hello" false) w).2) as Hev
    by event_in_trace.
  destruct (empty_validation_message_is_accepted (P := Lab.platform)
              Lab.process0 "hello" false w USE_GEMINI (Some "") Hev eq_refl)
    as (c & r & _ & Hinit).
  exists c, r. exact Hinit.
Defined.

End FurtherRuns.

Section FurtherLoads.
Import Js JsFacts CommandService CommandServiceFacts.

Ltac member := apply list_elem_of_In; simpl; tauto.

(** After the load of the test suite, pushing throws and the one command
    stays the only one. *)
Lemma published_catalog_is_frozen_witness :
  let s := (construct [loader_of [mockCommandA]] empty_store).1 in
  let σ := (construct [loader_of [mockCommandA]] empty_store).2 in
  let loaded := loadCommands s σ in
  (∃ m, (push (getCommands loaded.1.2) mockCommandB loaded.2).1 = Throw (TypeError m))
  ∧ published loaded.1.2 (push (getCommands loaded.1.2) mockCommandB loaded.2).2
    = [mockCommandA].
Proof.
  intros s σ loaded.
  destruct (published_catalog_is_frozen s loaded.1.2 σ loaded.2 mockCommandB eq_refl)
    as (Hthrows & _ & Hsame).
  split; [exact Hthrows|]. rewrite Hsame. reflexivity.
Defined.

(** Two loaders, each called once. *)
Lemma completed_load_calls_each_loader_once_witness :
  let s := (construct [loader_of [mockCommandA]; loader_of [mockCommandC]] empty_store).1 in
  let σ := (construct [loader_of [mockCommandA]; loader_of [mockCommandC]] empty_store).2 in
  invocations <$> loaders s = [0; 0]
  ∧ invocations <$> loaders (loadCommands s σ).1.2 = [1; 1].
Proof.
  intros s σ. split; [reflexivity|].
  destruct (completed_load_calls_each_loader_once s (loadCommands s σ).1.2 σ
              (loadCommands s σ).2 eq_refl)
    as (Hcalls & _).
  exact Hcalls.
Defined.

(** A loader that is fulfilled at its first call and throws at its second:
    the second [loadCommands()] is rejected and the first catalog stays. *)
Lemma sync_throw_rejects_and_publishes_nothing_witness :
  let l := scripted_loader [ReturnsPromise (fulfilled [mockCommandA]);
                            ThrowsSync (Error "Loader failed")] in
  let s := (construct [l] empty_store).1 in
  let σ := (construct [l] empty_store).2 in
  let first := loadCommands s σ in
  let second := loadCommands first.1.2 first.2 in
  published first.1.2 first.2 = [mockCommandA]
  ∧ second.1.1 = Throw (Error "Loader failed")
  ∧ published second.1.2 second.2 = [mockCommandA].
Proof.
  intros l s σ first second. split; [reflexivity|].
  destruct (sync_throw_rejects_and_publishes_nothing first.1.2 first.2 [] []
              (invoked l) (Error "Loader failed") eq_refl (Forall_nil_2 _) eq_refl)
    as (Hthrow & Hsame).
  split; [exact (f_equal (λ r, r.1.1) Hthrow)|exact Hsame].
Defined.

(** Two loaders with different names: both commands, in registration
    order. *)
Lemma distinct_names_are_all_published_witness :
  let s := (construct [loader_of [mockCommandA]; loader_of [mockCommandC]] empty_store).1 in
  let σ := (construct [loader_of [mockCommandA]; loader_of [mockCommandC]] empty_store).2 in
  ∃ s' σ', loadCommands s σ = (Ok (), s', σ')
           ∧ published s' σ' = [mockCommandA; mockCommandC].
Proof.
  intros s σ.
  assert (NoDup (name <$> fulfilled_values [fulfilled [mockCommandA];
                                            fulfilled [mockCommandC]])) as Hnd.
  { apply NoDup_cons. split; [|apply NoDup_singleton].
    intros Hin%list_elem_of_singleton. discriminate Hin. }
  exact (distinct_names_are_all_published s σ
           [fulfilled [mockCommandA]; fulfilled [mockCommandC]] eq_refl Hnd).
Defined.

(** A second load that gives back the merged list of the first. *)
Lemma reloading_the_catalog_republishes_it_witness :
  let l := scripted_loader
             [ReturnsPromise (fulfilled [mockCommandA; mockCommandB; mockCommandB_Override]);
              ReturnsPromise (fulfilled [mockCommandA; mockCommandB_Override])] in
  let s := (construct [l] empty_store).1 in
  let σ := (construct [l] empty_store).2 in
  let first := loadCommands s σ in
  published first.1.2 first.2 = [mockCommandA; mockCommandB_Override]
  ∧ ∃ s2 σ2, loadCommands first.1.2 first.2 = (Ok (), s2, σ2)
             ∧ published s2 σ2 = [mockCommandA; mockCommandB_Override].
Proof.
  intros l s σ first. split; [reflexivity|].
  exact (reloading_the_catalog_republishes_it s first.1.2 σ first.2
           [fulfilled [mockCommandA; mockCommandB_Override]] eq_refl eq_refl eq_refl).
Defined.

(** A rejected loader between two fulfilled ones. *)
Lemma failed_loader_counts_as_empty_witness :
  let ls := [loader_of [mockCommandA]; rejecting_loader (Error "Loader failed");
             loader_of [mockCommandB]] in
  let s := (construct ls empty_store).1 in
  let σ := (construct ls empty_store).2 in
  ∃ s' σ', loadCommands s σ = (Ok (), s', σ')
           ∧ published s' σ' = [mockCommandA; mockCommandB].
Proof.
  intros ls s σ.
  exact (failed_loader_counts_as_empty s σ [fulfilled [mockCommandA]]
           [fulfilled [mockCommandB]] (rejected (Error "Loader failed")) eq_refl
           (or_intror (ex_intro _ (Error "Loader failed") eq_refl))).
Defined.

(** Three loaders: [command-b] belongs to the second, the last to produce
    it. *)
Lemma latest_producer_owns_the_name_witness :
  let ls := [loader_of [mockCommandA; mockCommandB]; loader_of [mockCommandB_Override];
             loader_of [mockCommandC]] in
  let s := (construct ls empty_store).1 in
  let σ := (construct ls empty_store).2 in
  ∃ s' σ', loadCommands s σ = (Ok (), s', σ')
           ∧ mockCommandB_Override ∈ published s' σ'
           ∧ mockCommandB ∉ published s' σ'.
Proof.
  intros ls s σ.
  destruct (latest_producer_owns_the_name s σ [fulfilled [mockCommandA; mockCommandB]]
              [fulfilled [mockCommandC]] [mockCommandB_Override] "command-b" eq_refl)
    as (s' & σ' & c & Hload & Hlast & Hin & Honly).
  - member.
  - intros Hin%list_elem_of_In. simpl in Hin. destruct Hin as [H|[]]. discriminate H.
  - injection Hlast as <-. exists s', σ'. split; [exact Hload|]. split; [exact Hin|].
    intros HB. specialize (Honly mockCommandB HB eq_refl). discriminate Honly.
Defined.

(** The override scenario: three names produced four times, three
    commands published. *)
Lemma catalog_has_one_command_per_name_witness :
  let ls := [loader_of [mockCommandA; mockCommandB];
             loader_of [mockCommandB_Override; mockCommandC]] in
  let s := (construct ls empty_store).1 in
  let σ := (construct ls empty_store).2 in
  ∃ s' σ', loadCommands s σ = (Ok (), s', σ')
           ∧ NoDup (name <$> published s' σ')
           ∧ length (published s' σ') ≤ 4.
Proof.
  intros ls s σ.
  destruct (catalog_has_one_command_per_name s σ
              [fulfilled [mockCommandA; mockCommandB];
               fulfilled [mockCommandB_Override; mockCommandC]] eq_refl)
    as (s' & σ' & Hload & _ & Hnd & Hlen).
  exists s', σ'. split; [exact Hload|]. split; [exact Hnd|exact Hlen].
Defined.

End FurtherLoads.
